(** * NanoparticleAtomCounter: the web front end and the comparison utility

    A shallow embedding of [app.py] (the Streamlit page that runs the
    counting engine on an uploaded table) and of
    [atomcounter_benchmark/plot-parity.py] (parity plots and percent-difference
    heatmaps of two result tables), with the properties their specification
    states about them.

    The counting engine itself ([nanoparticleatomcounting.atom_count]) is
    imported by [app.py] and is not part of these sources. In [App] it is a
    section variable about which nothing is assumed; [Engine] models, from
    the specification, its density catalog and its resolution of a row.

    - [App], [Parity], [Engine]: the definitions.
    - [AppProps], [ParityProps], [EngineProps]: what is proved of them. *)

From Stdlib Require Import ZArith List Bool String Ascii SpecFloat Lia.
From Stdlib.Strings Require Import Byte.
From stdpp Require Import base option list gmap strings pretty.

Local Open Scope string_scope.

(** ** The front end, [app.py] *)

Module App.

(** The disk: the files that exist, by path, with their bytes. *)
Abbreviation disk := (gmap string (list byte)).

(** A Python exception, by the text it carries. *)
Definition exn := string.

(** How the call [atom_counter(in_path, out_path, mode=mode)] ends. The handler
    of line 136 is [except Exception]: it does not catch what derives from
    [BaseException] only (such as [SystemExit]). *)
Inductive engine_result :=
| Returned
| RaisedException (e : exn)
| RaisedBaseException (e : exn).

(** How [pd.read_csv(out_path)] ends; line 154 catches [EmptyDataError] alone. *)
Inductive csv_result (D : Type) :=
| Parsed (df : D)
| EmptyDataError
| ParseFailure (e : exn).
Arguments Parsed {D} df.
Arguments EmptyDataError {D}.
Arguments ParseFailure {D} e.

(** What the page shows. The static elements of the page (header, images,
    title, instructions) carry no data and are left out. *)
Inductive element (D : Type) :=
| st_error (body : string)
| st_exception (e : exn)
| st_markdown (body : string)
| st_download_button (label : string) (data : list byte) (file_name mime : string)
| st_dataframe (df : D).
Arguments st_error {D} body.
Arguments st_exception {D} e.
Arguments st_markdown {D} body.
Arguments st_download_button {D} label data file_name mime.
Arguments st_dataframe {D} df.

(** What one run of the script does, in order: elements shown, and calls of the
    engine with their three arguments and the disk as it is at the call. *)
Inductive event (D : Type) :=
| Shown (el : element D)
| EngineCall (in_path out_path mode : string) (at_call : disk).
Arguments Shown {D} el.
Arguments EngineCall {D} in_path out_path mode at_call.

(** How the script ends: at its last line, at an [st.stop()], or with an
    exception nobody caught. *)
Inductive ending := Completed | Stopped | Uncaught (e : exn).

Record run (D : Type) := Run {
  trace : list (event D);
  disk_after : disk;
  ending_of : ending
}.
Arguments Run {D} trace disk_after ending_of.
Arguments trace {D} r.
Arguments disk_after {D} r.
Arguments ending_of {D} r.

(** The widgets' state of one run of the script: the option picked in the
    radio, the uploaded file (name and buffer) if there is one, whether the
    button was clicked. *)
Record session := Session {
  radio_choice : nat;
  uploaded : option (string * list byte);
  run_clicked : bool
}.

(** [st.radio(label, options)]: the option the user picked, the first one when
    nothing was picked. *)
Definition st_radio (options : list string) (choice : nat) : string :=
  default (hd "" options) (options !! choice).

(** [os.remove(path)]: [None] stands for its [FileNotFoundError]. *)
Definition os_remove (path : string) (d : disk) : option disk :=
  match d !! path with
  | Some _ => Some (delete path d)
  | None => None
  end.

(** [Path(path).unlink(missing_ok=True)]. *)
Definition unlink_missing_ok (path : string) (d : disk) : disk := delete path d.

(** [Path(path).exists()] and [Path(path).stat().st_size]. *)
Definition path_exists (path : string) (d : disk) : bool :=
  match d !! path with Some _ => true | None => false end.

Definition st_size (path : string) (d : disk) : nat :=
  match d !! path with Some bytes => length bytes | None => 0 end.

Definition read_bytes (path : string) (d : disk) : list byte :=
  default [] (d !! path).

Definition output_empty_message : string :=
  "The calculation finished, but the output file is empty. Check your input values or look at the traceback above.".

Definition no_rows_message (out_path : string) : string :=
  String.append out_path " exists but contains no rows.".

(** The two paths the script reserves and the disk at the call of the engine. *)
Record reservation := Reservation {
  in_path : string;
  out_path : string;
  at_invocation : disk
}.

Section Script.

Context {D : Type}.

(** The libraries and the engine the script calls. *)
Variable read_csv : list byte -> csv_result D.
Variable atom_counter : string -> string -> string -> disk -> engine_result * disk.
Variable path_suffix : string -> string.
Variable mkstemp_name : string -> disk -> string.

(** [tempfile.mkstemp(suffix=...)] creates an empty file under a name of its
    choice and returns the name. *)
Definition mkstemp (suffix : string) (d : disk) : string * disk :=
  let path := mkstemp_name suffix d in (path, <[path := []]> d).

(** Lines 124 to 131: the upload is written to a temporary file, a name is
    picked for the output and the file [mkstemp] made under it is removed. *)
Definition reserve (name : string) (buffer : list byte) (d : disk) : option reservation :=
  let in_suffix := path_suffix name in
  let '(inp, d1) := mkstemp in_suffix d in
  let d2 := <[inp := buffer]> d1 in
  let '(out, d3) := mkstemp ".csv" d2 in
  match os_remove out d3 with
  | Some d4 => Some (Reservation inp out d4)
  | None => None
  end.

(** Lines 133 to 171, from the call of the engine on. *)
Definition invoke_and_display (mode : string) (r : reservation) : run D :=
  let inp := in_path r in
  let out := out_path r in
  let call := EngineCall inp out mode (at_invocation r) in
  match atom_counter inp out mode (at_invocation r) with
  | (RaisedException e, d5) =>
      Run [call; Shown (st_exception e)] (unlink_missing_ok inp d5) Stopped
  | (RaisedBaseException e, d5) =>
      Run [call] d5 (Uncaught e)
  | (Returned, d5) =>
      if negb (path_exists out d5) || (st_size out d5 =? 0)%nat then
        Run [call; Shown (st_error output_empty_message)]
            (unlink_missing_ok out (unlink_missing_ok inp d5)) Stopped
      else
        match read_csv (read_bytes out d5) with
        | EmptyDataError =>
            Run [call; Shown (st_error (no_rows_message out))]
                (unlink_missing_ok out (unlink_missing_ok inp d5)) Stopped
        | ParseFailure e =>
            Run [call] d5 (Uncaught e)
        | Parsed df_out =>
            Run [call;
                 Shown (st_markdown "#### Results");
                 Shown (st_download_button "Download CSV" (read_bytes out d5)
                          "atom_count_output.csv" "text/csv");
                 Shown (st_dataframe df_out)]
                (unlink_missing_ok out (unlink_missing_ok inp d5)) Completed
        end
  end.

(** The block under [if st.button("Run calculation")], lines 120 to 171. *)
Definition run_calculation (mode name : string) (buffer : list byte) (d : disk) : run D :=
  match reserve name buffer d with
  | Some r => invoke_and_display mode r
  | None => Run [] d (Uncaught "FileNotFoundError")
  end.

(** The whole script, once from top to bottom. *)
Definition script (ui : session) (d : disk) : run D :=
  match d !! "sample_input.csv" with
  | None => Run [] d (Uncaught "FileNotFoundError")
  | Some sample =>
      let sidebar :=
        Shown (st_download_button "Sample input (.csv)" sample
                 "sample_input.csv" "text/csv") in
      let mode := st_radio ["volume"; "area"] (radio_choice ui) in
      match uploaded ui with
      | None => Run [sidebar] d Stopped
      | Some (name, buffer) =>
          if run_clicked ui then
            let r := run_calculation mode name buffer d in
            Run (sidebar :: trace r) (disk_after r) (ending_of r)
          else Run [sidebar] d Completed
      end
  end.

End Script.

(** The run shows a table of results. *)
Definition is_dataframe {D : Type} (ev : event D) : bool :=
  match ev with Shown (st_dataframe _) => true | _ => false end.

Definition shows_results {D : Type} (r : run D) : bool := existsb is_dataframe (trace r).

(** The run reports a failure with [st.error]. *)
Definition is_error {D : Type} (ev : event D) : bool :=
  match ev with Shown (st_error _) => true | _ => false end.

Definition reports_failure {D : Type} (r : run D) : bool := existsb is_error (trace r).

(** What holds of every call of the engine in a run. *)
Definition every_call {D : Type} (P : string -> string -> string -> disk -> Prop)
    (r : run D) : Prop :=
  Forall (fun ev => match ev with
                    | EngineCall inp out mode at_call => P inp out mode at_call
                    | Shown _ => True
                    end) (trace r).

(** A file that was not there before a call and is there after it: the call
    created it. *)
Definition created_during_call (path : string) (before after : disk) : Prop :=
  before !! path = None /\ is_Some (after !! path).

(** The condition of line 142 the other way round: the output file is there
    and holds at least one byte. *)
Definition output_present (path : string) (d : disk) : Prop :=
  exists content, d !! path = Some content /\ content <> [].

(** Success as the specification words it: results are shown exactly when
    the engine returned and the output file exists and is not empty. *)
Definition success_iff_output_present : Prop :=
  forall (D : Type) (read_csv : list byte -> csv_result D)
         (atom_counter : string -> string -> string -> disk -> engine_result * disk)
         (mode : string) (r : reservation),
    shows_results (invoke_and_display read_csv atom_counter mode r) = true <->
    exists d', atom_counter (in_path r) (out_path r) mode (at_invocation r) = (Returned, d')
               /\ output_present (out_path r) d'.

(** *** A sample session

    Stand-ins for the libraries and for the engine, to run the script on: a
    [read_csv] that finds no columns in a file made of line feeds only (as
    pandas does) and hands back the bytes of any other, an engine that writes
    a given content to its output path and returns, a [mkstemp] that numbers
    its files, and the suffix of a bare file name as pathlib defines it. *)

Definition read_csv_sample (content : list byte) : csv_result (list byte) :=
  if forallb (fun b => Byte.eqb b x0a) content then EmptyDataError else Parsed content.

Definition engine_writing (content : list byte)
    (inp out mode : string) (d : disk) : engine_result * disk :=
  (Returned, <[out := content]> d).

Definition mkstemp_numbered (suffix : string) (d : disk) : string :=
  "/tmp/tmp" +:+ pretty (size d) +:+ suffix.

Fixpoint last_dot (cs : list ascii) (i : nat) : option nat :=
  match cs with
  | [] => None
  | c :: rest =>
      match last_dot rest (S i) with
      | Some j => Some j
      | None => if Ascii.eqb c "." then Some i else None
      end
  end.

Definition suffix_of_name (name : string) : string :=
  let cs := list_ascii_of_string name in
  match last_dot cs 0 with
  | Some i =>
      if ((0 <? i) && (i <? length cs - 1))%nat
      then string_of_list_ascii (drop i cs) else ""
  | None => ""
  end.

Definition sample_disk : disk :=
  <["sample_input.csv" := list_byte_of_string "r (A),R (A),Theta,Element"]> ∅.

Definition sample_session : session :=
  {| radio_choice := 1;
     uploaded := Some ("input.csv", list_byte_of_string "r (A),R (A),Theta,Element");
     run_clicked := true |}.

Definition sample_table : list byte :=
  list_byte_of_string "Perimeter,Interface,Surface,Total".

(** *** The temporary files *)

(** [tempfile.mkstemp] opens its file with [O_EXCL]: the name it returns is
    not that of a file already there. *)
Definition mkstemp_exclusive (mkstemp_name : string -> disk -> string) : Prop :=
  forall suffix d, d !! mkstemp_name suffix d = None.

Definition is_engine_call {D : Type} (ev : event D) : bool :=
  match ev with EngineCall _ _ _ _ => true | Shown _ => false end.

(** How many times a run calls the engine. *)
Definition engine_calls {D : Type} (r : run D) : nat :=
  length (List.filter is_engine_call (trace r)).

Definition is_exception {D : Type} (ev : event D) : bool :=
  match ev with Shown (st_exception _) => true | _ => false end.

(** The run shows a traceback with [st.exception]. *)
Definition shows_exception {D : Type} (r : run D) : bool :=
  existsb is_exception (trace r).

(** A [mkstemp] for the samples that is exclusive on every disk: its names are
    longer than any name there. *)
Fixpoint filler (n : nat) : string :=
  match n with
  | O => ""
  | S n' => String "x" (filler n')
  end.

Definition mkstemp_longer (suffix : string) (d : disk) : string :=
  "/tmp/" +:+ filler (S (max_list (String.length <$> elements (dom d)))) +:+ suffix.

(** An engine that writes a given content to its output path and then raises. *)
Definition engine_failing_after (content : list byte)
    (inp out mode : string) (d : disk) : engine_result * disk :=
  (RaisedException "ValueError", <[out := content]> d).

End App.

(** ** The comparison utility, [atomcounter_benchmark/plot-parity.py] *)

Module Parity.

(** *** Numbers: numpy's [float64] and [int64] *)

(** A [float64] is an IEEE 754 binary64 number; its operations are those of
    the Standard Library's specification of binary64 (round to nearest, ties
    to even). *)
Definition float64 := spec_float.

Definition f_nan : float64 := S754_nan.
Definition f_add : float64 -> float64 -> float64 := SFadd 53 1024.
Definition f_sub : float64 -> float64 -> float64 := SFsub 53 1024.
Definition f_mul : float64 -> float64 -> float64 := SFmul 53 1024.
Definition f_div : float64 -> float64 -> float64 := SFdiv 53 1024.
Definition f_abs : float64 -> float64 := SFabs.
Definition f_ltb : float64 -> float64 -> bool := SFltb.

(** The [float64] nearest to an integer: the conversion numpy applies to an
    [int64] that meets a [float64], and Python to an integer literal. *)
Definition of_int (z : Z) : float64 := binary_normalize 53 1024 z 0 false.

(** The literal [0.05]: the [float64] nearest to one twentieth. *)
Definition f_0_05 : float64 := Eval vm_compute in f_div (of_int 1) (of_int 20).

(** [np.isfinite]. *)
Definition is_finite (f : float64) : bool :=
  match f with
  | S754_zero _ | S754_finite _ _ _ => true
  | S754_infinity _ | S754_nan => false
  end.

(** [int64] arithmetic wraps around. *)
Definition wrap64 (z : Z) : Z := ((z + 2 ^ 63) mod 2 ^ 64 - 2 ^ 63)%Z.

(** A column of a table as [pd.read_csv] types it: [int64] when every cell is
    an integer, [float64] otherwise (a missing cell is NaN). Columns of text
    are not modelled. *)
Inductive series :=
| SInt (v : list Z)
| SFloat (v : list float64).

(** A numpy scalar: one cell of a column, or the result of a reduction. *)
Inductive scalar :=
| VInt (z : Z)
| VFloat (f : float64).

Definition series_len (s : series) : nat :=
  match s with SInt v => length v | SFloat v => length v end.

Definition floats_of (s : series) : list float64 :=
  match s with SInt v => map of_int v | SFloat v => v end.

Definition float_of (a : scalar) : float64 :=
  match a with VInt z => of_int z | VFloat f => f end.

(** The cell of a column at a row. *)
Definition cell (s : series) (i : nat) : option scalar :=
  match s with
  | SInt v => VInt <$> v !! i
  | SFloat v => VFloat <$> v !! i
  end.

(** An operation between two columns goes row by row over the union of their
    row labels ([0], [1], ...): a row one of them lacks gives NaN. *)
Fixpoint aligned (op : float64 -> float64 -> float64) (xs ys : list float64) : list float64 :=
  match xs, ys with
  | x :: xs', y :: ys' => op x y :: aligned op xs' ys'
  | [], _ => map (fun _ => f_nan) ys
  | _, [] => map (fun _ => f_nan) xs
  end.

(** [x - y]: in [int64] when both columns are [int64] with the same rows, in
    [float64] otherwise. *)
Definition series_sub (x y : series) : series :=
  match x, y with
  | SInt a, SInt b =>
      if (length a =? length b)%nat
      then SInt (zip_with (fun p q => wrap64 (p - q)) a b)
      else SFloat (aligned f_sub (map of_int a) (map of_int b))
  | _, _ => SFloat (aligned f_sub (floats_of x) (floats_of y))
  end.

(** [k * s] for a Python integer [k]. *)
Definition int_times (k : Z) (s : series) : series :=
  match s with
  | SInt a => SInt (map (fun p => wrap64 (k * p)) a)
  | SFloat a => SFloat (map (f_mul (of_int k)) a)
  end.

(** [x / y]: true division, always in [float64]. *)
Definition series_truediv (x y : series) : list float64 :=
  aligned f_div (floats_of x) (floats_of y).

(** [np.abs] of a [float64] column. *)
Definition np_abs (v : list float64) : list float64 := map f_abs v.

(** [diff[~np.isfinite(diff)] = np.nan]. *)
Definition nan_unless_finite (d : float64) : float64 :=
  if is_finite d then d else f_nan.

Definition mask_nonfinite (v : list float64) : list float64 := map nan_unless_finite v.

(** Lines 67 and 68: the values of the heatmap. *)
Definition percent_diff (x y : series) : list float64 :=
  mask_nonfinite (np_abs (series_truediv (int_times 100 (series_sub x y)) y)).

(** *** Reductions and scalars: lines 73 to 76 *)

(** [Series.min()] and [Series.max()] skip NaN; the result is NaN when nothing
    is left, in particular for a column without rows. *)
Definition is_nan (f : float64) : bool :=
  match f with S754_nan => true | _ => false end.

Definition float_min (a b : float64) : float64 := if f_ltb b a then b else a.
Definition float_max (a b : float64) : float64 := if f_ltb a b then b else a.

Definition nan_reduce (op : float64 -> float64 -> float64) (v : list float64) : float64 :=
  match filter (fun f => is_nan f = false) v with
  | [] => f_nan
  | f :: rest => fold_left op rest f
  end.

Definition series_min (s : series) : scalar :=
  match s with
  | SInt [] => VFloat f_nan
  | SInt (z :: v) => VInt (fold_left Z.min v z)
  | SFloat v => VFloat (nan_reduce float_min v)
  end.

Definition series_max (s : series) : scalar :=
  match s with
  | SInt [] => VFloat f_nan
  | SInt (z :: v) => VInt (fold_left Z.max v z)
  | SFloat v => VFloat (nan_reduce float_max v)
  end.

(** [a < b] between numpy scalars: exact between two [int64], in [float64]
    otherwise. *)
Definition scalar_ltb (a b : scalar) : bool :=
  match a, b with
  | VInt p, VInt q => (p <? q)%Z
  | _, _ => f_ltb (float_of a) (float_of b)
  end.

(** Python's [min(a, b)] and [max(a, b)]: the first argument unless the second
    is strictly smaller (larger). *)
Definition py_min (a b : scalar) : scalar := if scalar_ltb b a then b else a.
Definition py_max (a b : scalar) : scalar := if scalar_ltb a b then b else a.

(** [hi - lo]. *)
Definition scalar_sub (a b : scalar) : scalar :=
  match a, b with
  | VInt p, VInt q => VInt (wrap64 (p - q))
  | _, _ => VFloat (f_sub (float_of a) (float_of b))
  end.

Definition joint_lo (x y : series) : scalar := py_min (series_min x) (series_min y).
Definition joint_hi (x y : series) : scalar := py_max (series_max x) (series_max y).

(** [pad = 0.05 * (hi - lo)]. *)
Definition pad (x y : series) : float64 :=
  f_mul f_0_05 (float_of (scalar_sub (joint_hi x y) (joint_lo x y))).

(** [lo, hi = lo - pad, hi + pad]. *)
Definition padded_lo (x y : series) : float64 := f_sub (float_of (joint_lo x y)) (pad x y).
Definition padded_hi (x y : series) : float64 := f_add (float_of (joint_hi x y)) (pad x y).

(** *** The least and the greatest of a column *)

(** What [Series.min()] answers with: the least of the numbers of the column,
    NaN left aside, and NaN for a column without a number. *)
Definition is_min_of (s : series) (m : scalar) : Prop :=
  match s, m with
  | SInt v, VInt k => k ∈ v /\ forall w, w ∈ v -> (k <= w)%Z
  | SInt v, VFloat f => v = [] /\ f = f_nan
  | SFloat v, VFloat f =>
      (f = f_nan /\ forall w, w ∈ v -> w = f_nan)
      \/ (f ∈ v /\ is_nan f = false /\ forall w, w ∈ v -> f_ltb w f = false)
  | SFloat _, VInt _ => False
  end.

(** The same for [Series.max()]. *)
Definition is_max_of (s : series) (m : scalar) : Prop :=
  match s, m with
  | SInt v, VInt k => k ∈ v /\ forall w, w ∈ v -> (w <= k)%Z
  | SInt v, VFloat f => v = [] /\ f = f_nan
  | SFloat v, VFloat f =>
      (f = f_nan /\ forall w, w ∈ v -> w = f_nan)
      \/ (f ∈ v /\ is_nan f = false /\ forall w, w ∈ v -> f_ltb f w = false)
  | SFloat _, VInt _ => False
  end.

(** One numpy scalar is less than another: as integers between two [int64],
    as [float64] otherwise. *)
Definition less_than (a b : scalar) : Prop :=
  match a, b with
  | VInt p, VInt q => (p < q)%Z
  | _, _ => f_ltb (float_of a) (float_of b) = true
  end.

(** A number that is not NaN by sign and class, exponent and mantissa: the
    numbers are ordered as these triples are. *)
Definition order_key (f : float64) : Z * Z * Z :=
  match f with
  | S754_nan | S754_zero _ => (0, 0, 0)
  | S754_infinity true => (-2, 0, 0)
  | S754_infinity false => (2, 0, 0)
  | S754_finite true m e => (-1, - e, - Z.pos m)
  | S754_finite false m e => (1, e, Z.pos m)
  end%Z.

Definition key_lt (p q : Z * Z * Z) : Prop :=
  (p.1.1 < q.1.1
   \/ (p.1.1 = q.1.1 /\ (p.1.2 < q.1.2 \/ (p.1.2 = q.1.2 /\ p.2 < q.2))))%Z.

(** *** Headers

    A header is held as the bytes of its UTF-8 encoding, as [read_csv] finds
    them in the file. *)

(** The ASCII characters [str.isspace] accepts. *)
Definition is_space (c : ascii) : bool :=
  let n := nat_of_ascii c in
  ((9 <=? n) && (n <=? 13) || (28 <=? n) && (n <=? 32))%nat.

(** The UTF-8 bytes of a character below U+10000. *)
Definition utf8 (n : N) : list ascii :=
  map ascii_of_N
    (if n <? 128 then [n]
     else if n <? 2048 then [192 + n / 64; 128 + n mod 64]
     else [224 + n / 4096; 128 + (n / 64) mod 64; 128 + n mod 64])%N.

(** All the characters [str.isspace] accepts, and [str.strip()] takes off:
    U+0009 to U+000D, U+001C to U+0020, U+0085, U+00A0, U+1680, U+2000 to
    U+200A, U+2028, U+2029, U+202F, U+205F and U+3000. *)
Definition space_characters : list N :=
  [9; 10; 11; 12; 13; 28; 29; 30; 31; 32; 133; 160; 5760;
   8192; 8193; 8194; 8195; 8196; 8197; 8198; 8199; 8200; 8201; 8202;
   8232; 8233; 8239; 8287; 12288]%N.

(** These characters, each as its UTF-8 bytes. *)
Definition space_codes : list (list ascii) :=
  Eval vm_compute in map utf8 space_characters.

(** What follows [p] in [cs], when [cs] starts with [p]. *)
Fixpoint after_prefix (p cs : list ascii) : option (list ascii) :=
  match p, cs with
  | [], _ => Some cs
  | a :: p', c :: cs' => if Ascii.eqb a c then after_prefix p' cs' else None
  | _ :: _, [] => None
  end.

(** What follows the first character of [cs], when it is one of [codes]. *)
Fixpoint drop_code (codes : list (list ascii)) (cs : list ascii) : option (list ascii) :=
  match codes with
  | [] => None
  | p :: codes' =>
      match after_prefix p cs with
      | Some rest => Some rest
      | None => drop_code codes' cs
      end
  end.

(** [cs] without the characters of [codes] it starts with; a pass takes one
    character off, and [fuel] passes are enough for [fuel] bytes. *)
Fixpoint lstrip_with (codes : list (list ascii)) (fuel : nat) (cs : list ascii)
  : list ascii :=
  match fuel with
  | 0%nat => cs
  | S fuel' =>
      match drop_code codes cs with
      | Some rest => lstrip_with codes fuel' rest
      | None => cs
      end
  end.

Definition lstrip (cs : list ascii) : list ascii :=
  lstrip_with space_codes (length cs) cs.

(** From the end: the same on the bytes in reverse, with the characters
    spelled in reverse. *)
Definition rstrip (cs : list ascii) : list ascii :=
  rev (lstrip_with (map (@rev ascii) space_codes) (length cs) (rev cs)).

(** [str.strip()]. *)
Definition strip (s : string) : string :=
  string_of_list_ascii (rstrip (lstrip (list_ascii_of_string s))).

(** Text made of whitespace characters only. *)
Definition whitespace (s : string) : Prop :=
  exists ws, Forall (fun w => w ∈ space_codes) ws /\ list_ascii_of_string s = concat ws.

Definition lower_ascii (c : ascii) : ascii :=
  let n := nat_of_ascii c in
  if ((65 <=? n) && (n <=? 90))%nat then ascii_of_nat (n + 32) else c.

(** [str.lower()] on ASCII text: the letters A to Z are lowered and every
    other byte is kept. On the letters outside ASCII [str.lower()] does more,
    which is not modelled; what depends on it is stated for ASCII headers. *)
Definition lower (s : string) : string :=
  string_of_list_ascii (map lower_ascii (list_ascii_of_string s)).

(** A table: its columns in order, each under its header. *)
Definition frame := list (string * series).

Definition columns (df : frame) : list string := map fst df.

(** [df.columns = df.columns.str.strip()]. *)
Definition strip_columns (df : frame) : frame :=
  map (fun c => (strip (fst c), snd c)) df.

Definition mem (s : string) (l : list string) : bool := existsb (String.eqb s) l.

(** [Index.unique()]: the first occurrence of each label, in order. *)
Fixpoint unique (l : list string) : list string :=
  match l with
  | [] => []
  | s :: rest => s :: filter (fun t => negb (String.eqb s t)) (unique rest)
  end.

(** [a.intersection(b)]: the labels of [a] that [b] has too, once each, in the
    order of [a]. *)
Definition intersection (a b : list string) : list string :=
  unique (filter (fun s => mem s b) a).

(** [df[col]] as a column: a header that occurs twice selects a table instead,
    which the loop body cannot handle (line 73 raises on it). *)
Definition getitem (df : frame) (col : string) : option series :=
  match filter (fun c => String.eqb (fst c) col) df with
  | [c] => Some (snd c)
  | _ => None
  end.

(** What [df[col]] selects: nothing (a [KeyError]), a column, or, under a
    header that occurs more than once, a table. *)
Inductive selection :=
| Missing
| Column (s : series)
| Table.

Definition select (df : frame) (col : string) : selection :=
  match filter (fun c => String.eqb (fst c) col) df with
  | [] => Missing
  | [c] => Column (snd c)
  | _ => Table
  end.

(** *** Figures and the run of [main] *)

(** The parity plot of a column: what lines 79 to 91 put on the figure. Colours,
    marker sizes, fonts and the figure size are constants and are left out. *)
Record parity_figure := ParityFigure {
  scatter_x : series;
  scatter_y : series;
  line_x : float64 * float64;
  line_y : float64 * float64;
  parity_xlabel : string;
  parity_ylabel : string;
  parity_title : string;
  xlim : float64 * float64;
  ylim : float64 * float64;
  xticks_rotated : bool
}.

(** The heatmap of a column: lines 102 to 108. *)
Record heatmap_figure := HeatmapFigure {
  heat_x : series;
  heat_y : series;
  heat_c : list float64;
  heat_vmin : Z;
  heat_vmax : Z;
  colorbar_label : string;
  heat_xlabel : string;
  heat_ylabel : string;
  heat_title : string
}.

Inductive figure :=
| ParityPlot (f : parity_figure)
| Heatmap (f : heatmap_figure).

(** What the run does that can be seen from outside, in order. *)
Inductive event :=
| SaveFig (path : string) (fig : figure)
| ShowFig (fig : figure)
| Print (line : string).

(** How the run ends: at the end of [main], at [exit(message)], or with the
    traceback of an exception. *)
Inductive ending := Completed | Exited (message : string) | Traceback.

Record run := Run { events : list event; ending_of : ending }.

(** The command line: the three tables are those read from [csv_a], [csv_b]
    and [csv_c]; [--output_dir] has no default. *)
Record arguments := Args {
  show : bool;
  output_dir : option string
}.

Definition no_common_columns : string :=
  "Error: the two files share no common column headers.".

Definition parity_of (col : string) (x y : series) : parity_figure :=
  let lo := padded_lo x y in
  let hi := padded_hi x y in
  {| scatter_x := x;
     scatter_y := y;
     line_x := (lo, hi);
     line_y := (lo, hi);
     parity_xlabel := col +:+ " atoms (atomistic)";
     parity_ylabel := col +:+ " atoms (atomcounter)";
     parity_title := "Parity plot of results: " +:+ col;
     xlim := (lo, hi);
     ylim := (lo, hi);
     xticks_rotated := String.eqb col "Total" |}.

Definition heatmap_of (col : string) (theta curv_radii : series) (diff : list float64) : heatmap_figure :=
  {| heat_x := theta;
     heat_y := curv_radii;
     heat_c := diff;
     heat_vmin := 0;
     heat_vmax := 100;
     colorbar_label := "Absolute Percent Difference (%)";
     heat_xlabel := "θ (°)";
     heat_ylabel := "$R$ (Å)";
     heat_title := "Heatmap of differences in results: " +:+ col |}.

Definition saved (show_it : bool) (path : string) (fig : figure) : list event :=
  (SaveFig path fig :: (if show_it then [ShowFig fig] else []) ++ [Print ("Saved " +:+ path)])%list.

(** A colour value that [plt.scatter] takes as a part of an RGB(A) colour:
    not below 0 and not above 1, which NaN is not either. *)
Definition in_unit (v : float64) : bool :=
  negb (f_ltb v (S754_zero false)) && negb (f_ltb (of_int 1) v).

(** What [plt.scatter] accepts as the colours [c] of [n] points: one value for
    each point, or else three or four values that make one RGB(A) colour. *)
Definition colours_fit (c : list float64) (n : nat) : bool :=
  (length c =? n)%nat
  || ((length c =? 3)%nat || (length c =? 4)%nat) && forallb in_unit c.

(** The body of the loop, lines 59 to 115, for one column: the events it gets
    to, and whether it ends in an exception. The exceptions are those of
    lines 67 and 73 on a table in place of a column ([df[col]] on a header
    that occurs twice), of [df_c["Theta"]] and [df_c["R (A)"]] on a missing
    header, of [plt.scatter] on columns of different lengths or on colours it
    cannot take, of [plt.xlim] on a limit that is not finite and of
    [out_dir + ...] when no [--output_dir] was given. A header [Theta] or
    [R (A)] that occurs twice in the input table is no error at lines 70 and
    71: the parity plot is saved, and the heatmap is taken to fail at line 103
    on the sizes of the table and the column (left out: the two headers
    occurring as often as each other, in tables whose sizes then agree).
    Saving is taken to succeed. *)
Definition process_column (args : arguments) (df_a df_b df_c : frame) (col : string)
  : list event * bool :=
  match getitem df_a col, getitem df_b col with
  | Some x, Some y =>
      let diff := percent_diff x y in
      match select df_c "Theta", select df_c "R (A)" with
      | Missing, _ | _, Missing => ([], true)
      | theta, curv_radii =>
          if negb (series_len x =? series_len y)%nat then ([], true)
          else if negb (is_finite (padded_lo x y) && is_finite (padded_hi x y)) then ([], true)
          else
            match output_dir args with
            | None => ([], true)
            | Some out_dir =>
                let out_path_1 := out_dir +:+ "/parity_" +:+ lower col +:+ ".png" in
                let first := saved (show args) out_path_1 (ParityPlot (parity_of col x y)) in
                match theta, curv_radii with
                | Column theta, Column curv_radii =>
                    if negb ((series_len theta =? series_len curv_radii)%nat
                             && colours_fit diff (series_len theta))
                    then (first, true)
                    else
                      let out_path_2 := out_dir +:+ "/heatmap_" +:+ lower col +:+ ".png" in
                      ((first ++ saved (show args) out_path_2
                                   (Heatmap (heatmap_of col theta curv_radii diff)))%list, false)
                | _, _ => (first, true)
                end
            end
      end
  | _, _ => ([], true)
  end.

(** The loop [for col in common_cols]: an exception ends it. *)
Fixpoint plot_columns (args : arguments) (df_a df_b df_c : frame) (cols : list string)
  : list event * bool :=
  match cols with
  | [] => ([], false)
  | col :: rest =>
      match process_column args df_a df_b df_c col with
      | (evs, true) => (evs, true)
      | (evs, false) =>
          let '(evs', raised) := plot_columns args df_a df_b df_c rest in
          ((evs ++ evs')%list, raised)
      end
  end.

(** The columns the loop goes over: line 46, on the stripped headers. *)
Definition common_cols (df_a df_b : frame) : list string :=
  intersection (columns (strip_columns df_a)) (columns (strip_columns df_b)).

(** [main], from line 42 on. *)
Definition main (args : arguments) (df_a df_b df_c : frame) : run :=
  let a := strip_columns df_a in
  let b := strip_columns df_b in
  let c := strip_columns df_c in
  match common_cols df_a df_b with
  | [] => Run [] (Exited no_common_columns)
  | cols =>
      let '(evs, raised) := plot_columns args a b c cols in
      Run evs (if raised then Traceback else Completed)
  end.

(** *** One row of the heatmap

    The same computation on the two cells of a row, with the promotion rules
    of the columns they come from. *)

Definition scalar_times (k : Z) (a : scalar) : scalar :=
  match a with
  | VInt p => VInt (wrap64 (k * p))
  | VFloat f => VFloat (f_mul (of_int k) f)
  end.

Definition scalar_truediv (a b : scalar) : float64 := f_div (float_of a) (float_of b).

(** [np.abs] of a cell; in [int64] it wraps around like everything else. *)
Definition scalar_abs (a : scalar) : scalar :=
  match a with
  | VInt p => VInt (wrap64 (Z.abs p))
  | VFloat f => VFloat (f_abs f)
  end.

(** [100 * (x - y) / y]. *)
Definition quotient (a b : scalar) : float64 :=
  scalar_truediv (scalar_times 100 (scalar_sub a b)) b.

(** Lines 67 and 68 on one row: the absolute value of the whole quotient,
    and NaN in place of what is not finite. *)
Definition percent_cell (a b : scalar) : float64 :=
  nan_unless_finite (f_abs (quotient a b)).

(** The value the specification words: [100 * |x - y| / y], with the divisor
    as it stands, and NaN in place of what is not finite. *)
Definition claimed_percent (a b : scalar) : float64 :=
  nan_unless_finite (scalar_truediv (scalar_times 100 (scalar_abs (scalar_sub a b))) b).

(** The same with the absolute value of the divisor: [100 * |x - y| / |y|]. *)
Definition absolute_percent (a b : scalar) : float64 :=
  nan_unless_finite
    (f_div (float_of (scalar_times 100 (scalar_abs (scalar_sub a b)))) (f_abs (float_of b))).

(** Between two [int64] cells, [100 * (x - y)] is computed in [int64]: it is
    the product it stands for when that fits. Nothing wraps in [float64]. *)
Definition no_wrap (a b : scalar) : Prop :=
  match a, b with
  | VInt p, VInt q => (Z.abs (100 * (p - q)) < 2 ^ 63)%Z
  | _, _ => True
  end.

(** The heatmap as the specification words it: at every row of a shared column it
    holds [100 * |x - y| / y], or NaN when that is not finite. *)
Definition heatmap_is_claimed_percent : Prop :=
  forall (x y : series) (i : nat) (a b : scalar),
    series_len x = series_len y ->
    cell x i = Some a -> cell y i = Some b ->
    percent_diff x y !! i = Some (claimed_percent a b).

(** *** What a complete run produces *)

(** The two figures of a column and the lines printed for them. *)
Definition column_events (args : arguments) (df_a df_b df_c : frame) (col : string)
  : list event :=
  match getitem df_a col, getitem df_b col,
        getitem df_c "Theta", getitem df_c "R (A)", output_dir args with
  | Some x, Some y, Some theta, Some curv_radii, Some out_dir =>
      (saved (show args) (out_dir +:+ "/parity_" +:+ lower col +:+ ".png")
         (ParityPlot (parity_of col x y))
       ++ saved (show args) (out_dir +:+ "/heatmap_" +:+ lower col +:+ ".png")
            (Heatmap (heatmap_of col theta curv_radii (percent_diff x y))))%list
  | _, _, _, _, _ => []
  end.

(** The inputs the utility is meant for, for one shared column: the header
    occurs once in each result table, the two columns have as many rows as the
    [Theta] and [R (A)] columns of the input table, and the padded limits are
    finite (the tables have rows holding numbers). *)
Definition column_ok (df_a df_b df_c : frame) (col : string) : bool :=
  match getitem df_a col, getitem df_b col,
        getitem df_c "Theta", getitem df_c "R (A)" with
  | Some x, Some y, Some theta, Some curv_radii =>
      (series_len x =? series_len y)%nat
      && (series_len theta =? series_len curv_radii)%nat
      && (series_len x =? series_len theta)%nat
      && is_finite (padded_lo x y) && is_finite (padded_hi x y)
  | _, _, _, _ => false
  end.

(** These hold of every shared column, and an output directory was given. *)
Definition inputs_ok (args : arguments) (df_a df_b df_c : frame) : bool :=
  match output_dir args with
  | Some _ =>
      forallb (column_ok (strip_columns df_a) (strip_columns df_b) (strip_columns df_c))
              (common_cols df_a df_b)
  | None => false
  end.

(** *** Counting the figures of a column

    A figure names its column in its title. *)

Definition is_parity_plot_of (col : string) (ev : event) : bool :=
  match ev with
  | SaveFig _ (ParityPlot f) =>
      String.eqb (parity_title f) ("Parity plot of results: " +:+ col)
  | _ => false
  end.

Definition is_heatmap_of (col : string) (ev : event) : bool :=
  match ev with
  | SaveFig _ (Heatmap f) =>
      String.eqb (heat_title f) ("Heatmap of differences in results: " +:+ col)
  | _ => false
  end.

Definition count_events (p : event -> bool) (evs : list event) : nat :=
  length (List.filter p evs).

(** The titles of the parity plots a run has saved, in order, and those of
    its heatmaps. *)
Definition parity_titles (evs : list event) : list string :=
  flat_map (fun ev => match ev with
                      | SaveFig _ (ParityPlot f) => [parity_title f]
                      | _ => []
                      end) evs.

Definition heatmap_titles (evs : list event) : list string :=
  flat_map (fun ev => match ev with
                      | SaveFig _ (Heatmap f) => [heat_title f]
                      | _ => []
                      end) evs.

(** The figures as the specification words them: whatever the tables and the
    command line, a run produces exactly one parity plot and exactly one
    heatmap for every shared column. *)
Definition one_of_each_per_shared_column : Prop :=
  forall (args : arguments) (df_a df_b df_c : frame) (col : string),
    col ∈ common_cols df_a df_b ->
    count_events (is_parity_plot_of col) (events (main args df_a df_b df_c)) = 1%nat
    /\ count_events (is_heatmap_of col) (events (main args df_a df_b df_c)) = 1%nat.

(** The loop as the specification words it: whenever the two result tables
    share a header, the run processes exactly the shared columns, that is, it
    saves the figures of each of them. *)
Definition processes_the_intersection : Prop :=
  forall (args : arguments) (df_a df_b df_c : frame),
    common_cols df_a df_b <> [] ->
    parity_titles (events (main args df_a df_b df_c))
    = map (String.append "Parity plot of results: ") (common_cols df_a df_b)
    /\ heatmap_titles (events (main args df_a df_b df_c))
       = map (String.append "Heatmap of differences in results: ") (common_cols df_a df_b).

(** *** Sample tables *)

Definition atomistic_sample : frame :=
  [("Perimeter", SInt [30; 60]); (" Total", SInt [1000; 4100])]%Z.

Definition atomcounter_sample : frame :=
  [("Perimeter ", SInt [32; 0]); ("Total", SInt [1024; 4000])]%Z.

Definition input_sample : frame :=
  [("R (A)", SInt [10; 20]); ("Theta", SFloat [of_int 70; of_int 125])]%Z.

Definition arguments_sample : arguments :=
  {| show := false; output_dir := Some "plots" |}.

(** *** More vocabulary for the heatmap, the saved files and the headers *)

(** What an absolute percent difference can be: NaN, or a number that is
    finite and not negative. *)
Definition is_percentage (d : float64) : bool :=
  match d with
  | S754_nan | S754_zero false | S754_finite false _ _ => true
  | S754_zero true | S754_finite true _ _ | S754_infinity _ => false
  end.

Definition is_zero (f : float64) : bool :=
  match f with S754_zero _ => true | _ => false end.

(** The paths a run has saved figures under, in order. *)
Definition saved_paths (evs : list event) : list string :=
  flat_map (fun ev => match ev with SaveFig path _ => [path] | _ => [] end) evs.

Definition is_show (ev : event) : bool :=
  match ev with ShowFig _ => true | _ => false end.

(** A string of ASCII whitespace only. *)
Definition all_space (s : string) : bool := forallb is_space (list_ascii_of_string s).

(** Text written in ASCII: no byte of it is above 127. *)
Definition is_ascii_text (s : string) : bool :=
  forallb (fun c => (nat_of_ascii c <? 128)%nat) (list_ascii_of_string s).

(** No character of [codes] is the start of another. *)
Definition no_code_starts_another (codes : list (list ascii)) : bool :=
  forallb (fun p => forallb (fun q => match after_prefix p q with
                                      | Some (_ :: _) => false
                                      | _ => true
                                      end) codes) codes.

(** A byte that continues a character in UTF-8. *)
Definition is_continuation (c : ascii) : bool :=
  ((128 <=? nat_of_ascii c) && (nat_of_ascii c <? 192))%nat.

(** Text that does not start in the middle of a character. *)
Definition starts_a_character (r : list ascii) : Prop :=
  match r with
  | [] => True
  | c :: _ => is_continuation c = false
  end.

(** A table whose headers got text put before and after them. *)
Definition pad_headers (before after : string) (df : frame) : frame :=
  map (fun c => (before +:+ fst c +:+ after, snd c)) df.

Definition parity_path (out_dir col : string) : string :=
  out_dir +:+ "/parity_" +:+ lower col +:+ ".png".

Definition heatmap_path (out_dir col : string) : string :=
  out_dir +:+ "/heatmap_" +:+ lower col +:+ ".png".

(** The paths of the two figures of each column, column after column. *)
Definition figure_paths (out_dir : string) (cols : list string) : list string :=
  flat_map (fun col => [parity_path out_dir col; heatmap_path out_dir col]) cols.

(** *** More sample inputs *)

Definition arguments_without_dir : arguments :=
  {| show := true; output_dir := None |}.

Definition input_without_theta : frame :=
  [("R (A)", SInt [10; 20]); ("Angle", SFloat [of_int 70; of_int 125])]%Z.

(** A result table whose header [Total] is followed by a no-break space
    (U+00A0), and one with the bare header. *)
Definition atomistic_no_break_space : frame :=
  [(string_of_list_ascii (list_ascii_of_string "Total" ++ utf8 160)%list,
    SInt [1000; 4100]%Z)].

Definition atomcounter_bare : frame := [("Total", SInt [1024; 4000]%Z)].

(** The sample input table with a second column headed [Theta] once
    stripped. *)
Definition input_two_thetas : frame :=
  [("R (A)", SInt [10; 20]); ("Theta", SFloat [of_int 70; of_int 125]);
   (" Theta", SFloat [of_int 70; of_int 125])]%Z.

(** Two result tables of three rows, less than one percent apart in each. *)
Definition atomistic_three_rows : frame := [("Total", SInt [1000; 4000; 9000])]%Z.

Definition atomcounter_three_rows : frame := [("Total", SInt [1001; 4001; 9001])]%Z.

(** The sample tables, their headers written in another case in one column
    more. *)
Definition atomistic_two_cases : frame :=
  [("Total", SInt [1000; 4100]); ("TOTAL", SInt [1000; 4100])]%Z.

Definition atomcounter_two_cases : frame :=
  [("TOTAL", SInt [1024; 4000]); ("Total", SInt [1024; 4000])]%Z.

End Parity.

(** ** The counting engine's catalog and row pipeline

    [nanoparticleatomcounting.atom_count] is imported by [app.py] but is not
    among the sources, so the two parts of it modelled here follow the
    specification (its sections 3, 4.1 and 4.4). The densities themselves are
    not given there: the catalog is any table of them. *)

Module Engine.

(** Modelled from the spec: the error kinds of its section 7; the code that
    raises them is not in the sources. *)
Inductive error :=
| MissingSizeParameter
| InvalidGeometry
| UnknownElement
| UnknownFacet.

(** A result, or the error raised instead. *)
Inductive outcome (A : Type) :=
| Ok (a : A)
| Raise (e : error).
Arguments Ok {A} a.
Arguments Raise {A} e.

Section Catalog.

Context {density : Type}.

(** Modelled from the spec: what the Density Catalog of [atom_count], which is
    not in the sources, holds for one element (sections 3, 4.1 and 9): its
    volumetric density, its default facet with the areal density of that facet,
    and the areal densities of its other facets. The default is entered with
    its density, so the table of defaults is explicit and an element cannot be
    entered without one. *)
Record element_entry := ElementEntry {
  bulk_density : density;
  default_facet : string;
  default_areal_density : density;
  other_areal_densities : gmap string density
}.

(** Modelled from the spec: the areal densities of an element by facet, the
    default facet among them. *)
Definition areal_densities (e : element_entry) : gmap string density :=
  <[default_facet e := default_areal_density e]> (other_areal_densities e).

(** Modelled from the spec: the Density Catalog, by element. *)
Definition catalog := gmap string element_entry.

(** Modelled from the spec: the key of a DensityEntry (section 3), an element
    with a facet or with none for its bulk entry. *)
Inductive entry_key :=
| Bulk (element : string)
| Facet (element facet : string).

(** Modelled from the spec: the catalog as the mapping from (element,
    facet-or-bulk) to density of section 3. *)
Definition density_entry (cat : catalog) (key : entry_key) : option density :=
  match key with
  | Bulk element => bulk_density <$> cat !! element
  | Facet element facet => cat !! element ≫= fun e => areal_densities e !! facet
  end.

(** Modelled from the spec: the documented default-facet table of section 9. *)
Definition default_facets (cat : catalog) : gmap string string :=
  default_facet <$> cat.

(** Modelled from the spec: [lookup_bulk_density(element)] of section 4.1,
    which is not in the sources; it fails with [UnknownElement] when the
    element has no bulk entry. *)
Definition lookup_bulk_density (cat : catalog) (element : string) : outcome density :=
  match cat !! element with
  | Some e => Ok (bulk_density e)
  | None => Raise UnknownElement
  end.

(** Modelled from the spec: the facet a field of the row stands for; a blank
    field ([None]) stands for the default facet of the element. *)
Definition resolve_facet (e : element_entry) (field : option string) : string :=
  match field with
  | Some facet => facet
  | None => default_facet e
  end.

(** Modelled from the spec: the areal density for a facet field of a row whose
    element is in the catalog (section 4.1); the code is not in the sources. *)
Definition facet_density (e : element_entry) (field : option string) : outcome density :=
  match areal_densities e !! resolve_facet e field with
  | Some d => Ok d
  | None => Raise UnknownFacet
  end.

(** Modelled from the spec: [lookup_areal_density(element, facet)] of section
    4.1, which is not in the sources, with the facet as the row gives it. *)
Definition lookup_areal_density (cat : catalog) (element : string) (field : option string)
  : outcome density :=
  match cat !! element with
  | Some e => facet_density e field
  | None => Raise UnknownElement
  end.

(** Modelled from the spec: the three densities a row needs, looked up in the
    order bulk, interface, surface; the first failure is the row's. *)
Definition row_densities (cat : catalog) (element : string)
    (interface_facet surface_facet : option string)
  : outcome (density * density * density) :=
  match lookup_bulk_density cat element with
  | Raise err => Raise err
  | Ok bulk =>
      match lookup_areal_density cat element interface_facet with
      | Raise err => Raise err
      | Ok interface =>
          match lookup_areal_density cat element surface_facet with
          | Raise err => Raise err
          | Ok surface => Ok (bulk, interface, surface)
          end
      end
  end.

End Catalog.

Arguments element_entry density : clear implicits.
Arguments catalog density : clear implicits.

Section Pipeline.

(** The numbers of a row and the result of a count are left open, and so is
    the engine behind the pipeline: geometry and counting, as one function of
    the resolved row. *)
Context {number count_result : Type}.

(** Modelled from the spec: the InputRow of section 3, which is not in the
    sources. A blank field is [None]. *)
Record input_row := InputRow {
  size_small : option number;
  size_large : option number;
  theta_degrees : number;
  element : string;
  interface_facet : option string;
  surface_facet : option string
}.

(** Modelled from the spec: the one size parameter that determines the
    geometry of a row (section 3), [r] or [R]; the code that resolves it is
    not in the sources. *)
Inductive size :=
| Small (r : number)
| Large (R : number).

Variable count : size -> number -> string -> option string -> option string ->
                 string -> outcome count_result.

(** Modelled from the spec: the per-row resolution of section 4.4, which is
    not in the sources: [size_small] wins when both sizes are present, and a
    row with neither fails with [MissingSizeParameter]. *)
Definition effective_size (row : input_row) : outcome size :=
  match size_small row, size_large row with
  | Some r, _ => Ok (Small r)
  | None, Some R => Ok (Large R)
  | None, None => Raise MissingSizeParameter
  end.

(** Modelled from the spec: one row through the Row Pipeline of section 4.4,
    which is not in the sources. *)
Definition process_row (mode : string) (row : input_row) : outcome count_result :=
  match effective_size row with
  | Ok s =>
      count s (theta_degrees row) (element row) (interface_facet row)
            (surface_facet row) mode
  | Raise e => Raise e
  end.

(** The row with another value in its [size_large] field. *)
Definition with_size_large (row : input_row) (R : option number) : input_row :=
  {| size_small := size_small row;
     size_large := R;
     theta_degrees := theta_degrees row;
     element := element row;
     interface_facet := interface_facet row;
     surface_facet := surface_facet row |}.

End Pipeline.

Arguments input_row number : clear implicits.
Arguments size number : clear implicits.

(** *** A sample catalog and a sample engine

    The catalog holds one element with its default facet; its densities are
    named, not given. The engine behind the sample pipeline answers with the
    size it was handed. *)

Definition sample_entry : element_entry string :=
  {| bulk_density := "bulk density of Ag";
     default_facet := "111";
     default_areal_density := "areal density of Ag(111)";
     other_areal_densities := {["100" := "areal density of Ag(100)"]} |}.

Definition sample_catalog : catalog string := {["Ag" := sample_entry]}.

Definition echo_size (s : size Z) (theta : Z) (element : string)
    (interface_facet surface_facet : option string) (mode : string) : outcome (size Z) :=
  Ok s.

Definition sample_row : input_row Z :=
  {| size_small := Some 100%Z;
     size_large := Some 50%Z;
     theta_degrees := 90%Z;
     element := "Ag";
     interface_facet := None;
     surface_facet := None |}.

End Engine.

(** ** Properties of the front end *)

Module AppProps.
Import App.

Section Script.

Context {D : Type}.
Variable read_csv : list byte -> csv_result D.
Variable atom_counter : string -> string -> string -> disk -> engine_result * disk.
Variable path_suffix : string -> string.
Variable mkstemp_name : string -> disk -> string.

Local Abbreviation reserve := (reserve path_suffix mkstemp_name).
Local Abbreviation invoke_and_display := (invoke_and_display read_csv atom_counter).
Local Abbreviation run_calculation := (run_calculation read_csv atom_counter path_suffix mkstemp_name).
Local Abbreviation script := (script read_csv atom_counter path_suffix mkstemp_name).

(** The radio hands back one of its two options, whatever was picked. *)
Lemma st_radio_two (a b : string) (choice : nat) :
  st_radio [a; b] choice = a \/ st_radio [a; b] choice = b.
Proof. destruct choice as [|[|choice]]; cbn; auto. Qed.

(** [os.remove] never fails on the file [mkstemp] has just made, and leaves
    no file under the output path. *)
Lemma reserve_succeeds (name : string) (buffer : list byte) (d : disk) :
  exists r, reserve name buffer d = Some r /\ at_invocation r !! out_path r = None.
Proof.
  unfold App.reserve, mkstemp, os_remove.
  rewrite lookup_insert_eq.
  eexists; split; [reflexivity|].
  cbn. apply lookup_delete_eq.
Qed.

(** The engine is called at most once, first thing, with the reserved paths
    and the given mode. *)
Lemma invoke_and_display_trace (mode : string) (r : reservation) :
  exists rest,
    trace (invoke_and_display mode r)
    = EngineCall (in_path r) (out_path r) mode (at_invocation r) :: rest
    /\ Forall (fun ev => exists el, ev = Shown el) rest.
Proof.
  unfold App.invoke_and_display.
  destruct (atom_counter _ _ _ _) as [[| e | e] d5]; cbn.
  - destruct (negb _ || _); cbn.
    + eexists; split; [reflexivity|]. repeat constructor; eauto.
    + destruct (read_csv _); cbn; eexists; (split; [reflexivity|]);
        repeat constructor; eauto.
  - eexists; split; [reflexivity|]. repeat constructor; eauto.
  - eexists; split; [reflexivity|]. constructor.
Qed.

Lemma run_calculation_trace (mode name : string) (buffer : list byte) (d : disk) :
  exists r rest,
    reserve name buffer d = Some r
    /\ at_invocation r !! out_path r = None
    /\ trace (run_calculation mode name buffer d)
       = EngineCall (in_path r) (out_path r) mode (at_invocation r) :: rest
    /\ Forall (fun ev => exists el, ev = Shown el) rest.
Proof.
  destruct (reserve_succeeds name buffer d) as (r & Hr & Hnone).
  destruct (invoke_and_display_trace mode r) as (rest & Htrace & Hrest).
  exists r, rest. unfold App.run_calculation. rewrite Hr. auto.
Qed.

Lemma every_call_script (P : string -> string -> string -> disk -> Prop)
    (ui : session) (d : disk) :
  (forall name buffer r,
      uploaded ui = Some (name, buffer) ->
      reserve name buffer d = Some r ->
      at_invocation r !! out_path r = None ->
      P (in_path r) (out_path r)
        (st_radio ["volume"; "area"] (radio_choice ui)) (at_invocation r)) ->
  every_call P (script ui d).
Proof.
  intros HP. unfold every_call, App.script.
  destruct (d !! "sample_input.csv") as [sample|]; [|constructor].
  destruct (uploaded ui) as [[name buffer]|] eqn:Hup; [|repeat constructor].
  destruct (run_clicked ui); [|repeat constructor].
  cbn. constructor; [exact I|].
  destruct (run_calculation_trace (st_radio ["volume"; "area"] (radio_choice ui))
              name buffer d) as (r & rest & Hr & Hnone & Htrace & Hrest).
  rewrite Htrace. constructor; [eauto|].
  eapply Forall_impl; [exact Hrest|]. intros ev [el ->]. exact I.
Qed.

(** C8. Every call of the counting engine the front end makes passes "volume"
    or "area" as its mode: the mode is what the radio of line 60 returns, and
    the radio returns one of its two options. *)
Theorem engine_mode_is_volume_or_area (ui : session) (d : disk) :
  every_call (fun _ _ mode _ => mode = "volume" \/ mode = "area") (script ui d).
Proof.
  apply every_call_script. intros name buffer r _ _ _.
  apply st_radio_two.
Qed.

(** The run shows results exactly when the engine returned, the output file
    holds at least one byte and [read_csv] parsed it. *)
Lemma shows_results_iff (mode : string) (r : reservation) :
  shows_results (invoke_and_display mode r) = true <->
  exists d' content df,
    atom_counter (in_path r) (out_path r) mode (at_invocation r) = (Returned, d')
    /\ d' !! out_path r = Some content /\ content <> []
    /\ read_csv content = Parsed df.
Proof.
  unfold App.invoke_and_display, shows_results, path_exists, st_size, read_bytes.
  destruct (atom_counter _ _ _ _) as [[| e | e] d5]; cbn.
  - destruct (d5 !! out_path r) as [[|b content]|] eqn:Hout; cbn.
    + split; [discriminate|]. intros (d' & c & df & [= <-] & Hc & Hne & _).
      rewrite Hout in Hc. congruence.
    + destruct (read_csv (b :: content)) as [df| |e] eqn:Hcsv; cbn.
      * split; [|reflexivity]. intros _. exists d5, (b :: content), df. auto.
      * split; [discriminate|]. intros (d' & c & df & [= <-] & Hc & _ & Hp).
        rewrite Hout in Hc. congruence.
      * split; [discriminate|]. intros (d' & c & df & [= <-] & Hc & _ & Hp).
        rewrite Hout in Hc. congruence.
    + split; [discriminate|]. intros (d' & c & df & [= <-] & Hc & _).
      rewrite Hout in Hc. congruence.
  - split; [discriminate|]. intros (d' & c & df & [=] & _).
  - split; [discriminate|]. intros (d' & c & df & [=] & _).
Qed.

(** When the engine returned and the output file is absent or empty, the run
    reports the failure, shows no results and stops. *)
Lemma absent_or_empty_fails (mode : string) (r : reservation) (d' : disk) :
  atom_counter (in_path r) (out_path r) mode (at_invocation r) = (Returned, d') ->
  d' !! out_path r = None \/ d' !! out_path r = Some [] ->
  let result := invoke_and_display mode r in
  reports_failure result = true /\ shows_results result = false
  /\ ending_of result = Stopped.
Proof.
  intros Hcall Hout. unfold App.invoke_and_display, path_exists, st_size.
  rewrite Hcall. destruct Hout as [-> | ->]; cbn; auto.
Qed.

(** C6, amended. The front end shows results exactly when the engine returned
    without raising, the output file exists with a size that is not zero, and
    pandas parses it; when the engine returned and the file is absent or empty
    it reports the failure with [st.error], shows no results and stops. *)
Theorem success_needs_parsed_output (mode name : string) (buffer : list byte) (d : disk) :
  exists r, reserve name buffer d = Some r /\
    let result := run_calculation mode name buffer d in
    let after := atom_counter (in_path r) (out_path r) mode (at_invocation r) in
    (shows_results result = true <->
       after.1 = Returned
       /\ exists content df, after.2 !! out_path r = Some content /\ content <> []
                             /\ read_csv content = Parsed df)
    /\ (after.1 = Returned ->
        after.2 !! out_path r = None \/ after.2 !! out_path r = Some [] ->
        reports_failure result = true /\ shows_results result = false
        /\ ending_of result = Stopped).
Proof.
  destruct (reserve_succeeds name buffer d) as (r & Hr & _).
  exists r. split; [exact Hr|].
  unfold App.run_calculation. rewrite Hr. cbv zeta. split.
  - rewrite shows_results_iff.
    destruct (atom_counter _ _ _ _) as [res d'] eqn:Hcall. cbn. split.
    + intros (d'' & content & df & [= -> ->] & H). eauto.
    + intros (-> & content & df & H). eauto 6.
  - destruct (atom_counter _ _ _ _) as [res d'] eqn:Hcall. cbn.
    intros -> Hout. eapply absent_or_empty_fails; eauto.
Qed.

(** C9. At every call of the engine no file exists under the output path: the
    script has removed the one [mkstemp] made. So a file found there after the
    call was created by the engine during it, and when results are shown, the
    file they come from was absent when the engine was called and present,
    with the bytes offered for download, when it returned. *)
Theorem output_absent_at_invocation (ui : session) (d : disk) :
  every_call (fun inp out mode at_call =>
                at_call !! out = None
                /\ forall d', (atom_counter inp out mode at_call).2 = d' ->
                              is_Some (d' !! out) -> created_during_call out at_call d')
             (script ui d)
  /\ (shows_results (script ui d) = true ->
      exists inp out mode at_call d' content,
        EngineCall inp out mode at_call ∈ trace (script ui d)
        /\ at_call !! out = None
        /\ atom_counter inp out mode at_call = (Returned, d')
        /\ d' !! out = Some content /\ content <> []
        /\ Shown (st_download_button "Download CSV" content
                    "atom_count_output.csv" "text/csv") ∈ trace (script ui d)).
Proof.
  split.
  - apply every_call_script. intros name buffer r _ _ Hnone.
    split; [exact Hnone|]. intros d' _ Hsome. split; assumption.
  - unfold App.script, shows_results.
    destruct (d !! "sample_input.csv") as [sample|]; [|discriminate].
    destruct (uploaded ui) as [[name buffer]|]; [|discriminate].
    destruct (run_clicked ui); [|discriminate].
    cbn. unfold App.run_calculation.
    destruct (reserve_succeeds name buffer d) as (r & -> & Hnone).
    set (mode := st_radio _ _).
    intros Hshown.
    destruct (proj1 (shows_results_iff mode r) Hshown)
      as (d' & content & df & Hcall & Hout & Hne & Hcsv).
    exists (in_path r), (out_path r), mode, (at_invocation r), d', content.
    unfold App.invoke_and_display, path_exists, st_size, read_bytes.
    rewrite Hcall, Hout. destruct content as [|b content]; [congruence|].
    cbn. rewrite Hcsv. cbn.
    repeat split; auto; set_solver.
Qed.

End Script.

(** The counterexample of C6, run: the call, then the message of line 155. *)
Example single_newline_run :
  trace (invoke_and_display read_csv_sample (engine_writing [x0a]) "volume"
           (Reservation "/tmp/in.csv" "/tmp/out.csv" ∅))
  = [EngineCall "/tmp/in.csv" "/tmp/out.csv" "volume" ∅;
     Shown (st_error "/tmp/out.csv exists but contains no rows.")].
Proof. vm_compute. reflexivity. Qed.

(** C6, counterexample. An engine that returns after writing a single line
    feed leaves an output file that exists and is not empty; pandas finds no
    columns in it, line 154 catches its [EmptyDataError], and the run ends in
    an error message without results. *)
Lemma single_newline_output_fails : ~ success_iff_output_present.
Proof.
  intros H.
  specialize (H (list byte) read_csv_sample (engine_writing [x0a]) "volume"
                (Reservation "/tmp/in.csv" "/tmp/out.csv" ∅)).
  destruct H as [_ H].
  assert (Hshown : shows_results
            (invoke_and_display read_csv_sample (engine_writing [x0a]) "volume"
               (Reservation "/tmp/in.csv" "/tmp/out.csv" ∅)) = false)
    by (vm_compute; reflexivity).
  rewrite H in Hshown; [discriminate|].
  eexists. split; [reflexivity|].
  exists [x0a]. split; [|discriminate].
  cbn. apply lookup_insert_eq.
Qed.

(** The sample session: the engine writes a table header, and results are
    shown. *)
Lemma success_needs_parsed_output_sample :
  shows_results
    (run_calculation read_csv_sample (engine_writing sample_table) suffix_of_name
       mkstemp_numbered "area" "input.csv" [] sample_disk) = true.
Proof.
  destruct (success_needs_parsed_output read_csv_sample (engine_writing sample_table)
              suffix_of_name mkstemp_numbered "area" "input.csv" [] sample_disk)
    as (r & _ & Hiff & _).
  apply Hiff. split; [reflexivity|].
  exists sample_table, sample_table. cbn.
  rewrite lookup_insert_eq. repeat split. discriminate.
Defined.

(** In the sample session the table offered for download is the one the engine
    wrote during its call. *)
Lemma output_absent_at_invocation_sample :
  let result := script read_csv_sample (engine_writing sample_table) suffix_of_name
                  mkstemp_numbered sample_session sample_disk in
  exists inp out mode at_call d' content,
    EngineCall inp out mode at_call ∈ trace result
    /\ at_call !! out = None
    /\ engine_writing sample_table inp out mode at_call = (Returned, d')
    /\ d' !! out = Some content /\ content <> []
    /\ Shown (st_download_button "Download CSV" content
                "atom_count_output.csv" "text/csv") ∈ trace result.
Proof.
  apply (proj2 (output_absent_at_invocation read_csv_sample (engine_writing sample_table)
                  suffix_of_name mkstemp_numbered sample_session sample_disk)).
  vm_compute. reflexivity.
Defined.

End AppProps.

(** ** Properties of the comparison utility *)

Module ParityProps.
Import Parity.

(** *** Signs in binary64: rounding does not look at the sign *)

Lemma abs_round_aux (s : bool) (m e : Z) (l : location) :
  SFabs (binary_round_aux 53 1024 s m e l) = binary_round_aux 53 1024 false m e l.
Proof.
  unfold binary_round_aux.
  destruct (shr_fexp 53 1024 m e l) as [mrs' e'].
  destruct (shr_fexp 53 1024 _ e' loc_Exact) as [mrs'' e''].
  destruct (shr_m mrs''); [reflexivity| |reflexivity].
  destruct (Z.leb e'' _); reflexivity.
Qed.

Lemma f_abs_mul (a b : float64) : f_abs (f_mul a b) = f_mul (f_abs a) (f_abs b).
Proof.
  unfold f_abs, f_mul.
  destruct a as [sa|sa| |sa ma ea], b as [sb|sb| |sb mb eb];
    cbn [SFmul SFabs xorb]; try reflexivity.
  apply abs_round_aux.
Qed.

Lemma f_abs_div (a b : float64) : f_abs (f_div a b) = f_div (f_abs a) (f_abs b).
Proof.
  unfold f_abs, f_div.
  destruct a as [sa|sa| |sa ma ea], b as [sb|sb| |sb mb eb];
    cbn [SFdiv SFabs xorb]; try reflexivity.
  destruct (SFdiv_core_binary 53 1024 (Z.pos ma) ea (Z.pos mb) eb) as [[mz ez] lz].
  apply abs_round_aux.
Qed.

Lemma f_abs_idemp (a : float64) : f_abs (f_abs a) = f_abs a.
Proof. destruct a; reflexivity. Qed.

Lemma f_abs_of_int (z : Z) : f_abs (of_int z) = of_int (Z.abs z).
Proof.
  unfold f_abs, of_int.
  destruct z as [|p|p]; [reflexivity| |];
    change (Z.abs _) with (Z.pos p);
    unfold binary_normalize, binary_round;
    destruct (shl_align _ _ _) as [mz ez];
    apply abs_round_aux.
Qed.

(** A count that is not negative converts to a float whose sign bit is clear. *)
Lemma f_abs_of_nonneg (z : Z) : (0 <= z)%Z -> f_abs (of_int z) = of_int z.
Proof. intros Hz. rewrite f_abs_of_int, Z.abs_eq by exact Hz. reflexivity. Qed.

Lemma nan_unless_finite_not_infinite (d : float64) (s : bool) :
  nan_unless_finite d <> S754_infinity s.
Proof. destruct d; discriminate. Qed.

Lemma wrap64_small (z : Z) : (- 2 ^ 63 <= z < 2 ^ 63)%Z -> wrap64 z = z.
Proof. intros Hz. unfold wrap64. rewrite Z.mod_small; lia. Qed.

(** *** Columns row by row *)

Lemma aligned_lookup (op : float64 -> float64 -> float64) (xs ys : list float64) (i : nat) :
  length xs = length ys ->
  aligned op xs ys !! i
  = match xs !! i, ys !! i with
    | Some x, Some y => Some (op x y)
    | _, _ => None
    end.
Proof.
  revert ys i. induction xs as [|x xs IH]; intros [|y ys] i Hlen;
    try discriminate; [reflexivity|].
  destruct i as [|i]; [reflexivity|].
  cbn. apply IH. cbn in Hlen. lia.
Qed.

Lemma aligned_length (op : float64 -> float64 -> float64) (xs ys : list float64) :
  length xs = length ys -> length (aligned op xs ys) = length xs.
Proof.
  revert ys. induction xs as [|x xs IH]; intros [|y ys] Hlen;
    try discriminate; [reflexivity|].
  cbn. f_equal. apply IH. cbn in Hlen. lia.
Qed.

Lemma floats_of_lookup (s : series) (i : nat) :
  floats_of s !! i = float_of <$> cell s i.
Proof.
  destruct s as [v|v]; cbn.
  - rewrite list_lookup_fmap. destruct (v !! i); reflexivity.
  - destruct (v !! i); reflexivity.
Qed.

Lemma floats_of_length (s : series) : length (floats_of s) = series_len s.
Proof. destruct s; cbn; [apply length_map|reflexivity]. Qed.

Lemma series_sub_len (x y : series) :
  series_len x = series_len y -> series_len (series_sub x y) = series_len x.
Proof.
  intros Hlen. destruct x as [a|a], y as [b|b]; cbn in *.
  - rewrite Hlen, Nat.eqb_refl. cbn. rewrite length_zip_with. lia.
  - rewrite aligned_length; rewrite length_map; auto.
  - rewrite aligned_length; rewrite ?length_map; auto.
  - rewrite aligned_length; auto.
Qed.

Lemma series_sub_cell (x y : series) (i : nat) (a b : scalar) :
  series_len x = series_len y ->
  cell x i = Some a -> cell y i = Some b ->
  cell (series_sub x y) i = Some (scalar_sub a b).
Proof.
  intros Hlen Ha Hb.
  destruct x as [u|u], y as [v|v]; cbn in *.
  - rewrite Hlen, Nat.eqb_refl. cbn. rewrite lookup_zip_with.
    destruct (u !! i) as [p|]; [|discriminate].
    destruct (v !! i) as [q|]; [|discriminate].
    simplify_eq/=. reflexivity.
  - rewrite aligned_lookup by (rewrite length_map; exact Hlen).
    rewrite list_lookup_fmap.
    destruct (u !! i) as [p|]; [|discriminate].
    destruct (v !! i) as [g|]; [|discriminate].
    simplify_eq/=. reflexivity.
  - rewrite aligned_lookup by (rewrite length_map; exact Hlen).
    rewrite list_lookup_fmap.
    destruct (u !! i) as [f|]; [|discriminate].
    destruct (v !! i) as [q|]; [|discriminate].
    simplify_eq/=. reflexivity.
  - rewrite aligned_lookup by exact Hlen.
    destruct (u !! i) as [f|]; [|discriminate].
    destruct (v !! i) as [g|]; [|discriminate].
    simplify_eq/=. reflexivity.
Qed.

Lemma int_times_cell (k : Z) (s : series) (i : nat) (a : scalar) :
  cell s i = Some a -> cell (int_times k s) i = Some (scalar_times k a).
Proof.
  destruct s as [v|v]; cbn; rewrite list_lookup_fmap;
    destruct (v !! i); intros; simplify_eq/=; reflexivity.
Qed.

Lemma int_times_len (k : Z) (s : series) : series_len (int_times k s) = series_len s.
Proof. destruct s; cbn; apply length_map. Qed.

Lemma series_truediv_lookup (x y : series) (i : nat) (a b : scalar) :
  series_len x = series_len y ->
  cell x i = Some a -> cell y i = Some b ->
  series_truediv x y !! i = Some (scalar_truediv a b).
Proof.
  intros Hlen Ha Hb. unfold series_truediv.
  rewrite aligned_lookup by (rewrite !floats_of_length; exact Hlen).
  rewrite !floats_of_lookup, Ha, Hb. reflexivity.
Qed.

(** The heatmap's value at a row is the row's own: lines 67 and 68 work cell
    by cell when the two columns have the same rows. *)
Lemma percent_diff_row (x y : series) (i : nat) (a b : scalar) :
  series_len x = series_len y ->
  cell x i = Some a -> cell y i = Some b ->
  percent_diff x y !! i = Some (percent_cell a b).
Proof.
  intros Hlen Ha Hb. unfold percent_diff, mask_nonfinite, np_abs, percent_cell, quotient.
  rewrite !list_lookup_fmap.
  rewrite (series_truediv_lookup _ _ i (scalar_times 100 (scalar_sub a b)) b).
  - reflexivity.
  - rewrite int_times_len, series_sub_len; auto.
  - apply int_times_cell, series_sub_cell; auto.
  - exact Hb.
Qed.

Lemma percent_diff_length (x y : series) :
  series_len x = series_len y -> length (percent_diff x y) = series_len x.
Proof.
  intros Hlen. unfold percent_diff, mask_nonfinite, np_abs, series_truediv.
  rewrite !length_map, aligned_length; rewrite !floats_of_length.
  - rewrite int_times_len. apply series_sub_len, Hlen.
  - rewrite int_times_len, series_sub_len; auto.
Qed.

(** *** The heatmap's values *)

Lemma is_finite_abs (d : float64) : is_finite (f_abs d) = is_finite d.
Proof. destruct d; reflexivity. Qed.

(** The absolute value of the quotient is the quotient of the absolute
    values. *)
Lemma percent_cell_absolute (a b : scalar) :
  no_wrap a b -> percent_cell a b = absolute_percent a b.
Proof.
  intros Hw. unfold percent_cell, absolute_percent, quotient, scalar_truediv.
  rewrite f_abs_div. do 2 f_equal.
  destruct a as [p|f], b as [q|g];
    cbn [scalar_sub scalar_times scalar_abs float_of no_wrap] in *.
  - rewrite f_abs_of_int. f_equal.
    rewrite (wrap64_small (p - q)) by lia.
    rewrite (wrap64_small (Z.abs (p - q))) by lia.
    rewrite !wrap64_small by lia. lia.
  - rewrite f_abs_mul. reflexivity.
  - rewrite f_abs_mul. reflexivity.
  - rewrite f_abs_mul. reflexivity.
Qed.

(** C5, counterexample. With 1 in the first table and -1 in the second, line
    67 takes the absolute value of [100 * 2 / -1] and the heatmap holds 200,
    where [100 * |2| / -1] is -200. *)
Lemma negative_divisor_differs : ~ heatmap_is_claimed_percent.
Proof.
  intros H.
  specialize (H (SInt [1%Z]) (SInt [(-1)%Z]) 0%nat (VInt 1) (VInt (-1))
                eq_refl eq_refl eq_refl).
  vm_compute in H. discriminate H.
Qed.

(** C5, amended. At every row of a shared column of two tables with the same
    rows, the heatmap holds the absolute value of the whole quotient
    [100 * (x - y) / y], with NaN in place of a value that is not finite and so
    never an infinity. That value is [100 * |x - y| / |y|] (as long as
    [100 * (x - y)] fits [int64] when both columns are integers), which is the
    [100 * |x - y| / y] of the specification when [y] is not negative. *)
Theorem heatmap_is_absolute_percent (x y : series) (i : nat) (a b : scalar) :
  series_len x = series_len y ->
  cell x i = Some a -> cell y i = Some b ->
  percent_diff x y !! i = Some (percent_cell a b)
  /\ (forall s, percent_cell a b <> S754_infinity s)
  /\ (is_finite (quotient a b) = false -> percent_cell a b = f_nan)
  /\ (no_wrap a b -> percent_cell a b = absolute_percent a b)
  /\ (no_wrap a b -> f_abs (float_of b) = float_of b ->
      percent_cell a b = claimed_percent a b).
Proof.
  intros Hlen Ha Hb. repeat split.
  - apply percent_diff_row; assumption.
  - intros s. apply nan_unless_finite_not_infinite.
  - intros Hq. unfold percent_cell, nan_unless_finite.
    rewrite is_finite_abs, Hq. reflexivity.
  - apply percent_cell_absolute.
  - intros Hw Hb'. rewrite percent_cell_absolute by exact Hw.
    unfold absolute_percent, claimed_percent, scalar_truediv.
    rewrite Hb'. reflexivity.
Qed.

(** The first row of the sample tables: 30 against 32 gives 6.25 percent,
    which is [100 * |30 - 32| / |32|]. *)
Lemma heatmap_is_absolute_percent_sample :
  percent_diff (SInt [30; 60]%Z) (SInt [32; 0]%Z) !! 0%nat
  = Some (percent_cell (VInt 30) (VInt 32))
  /\ percent_cell (VInt 30) (VInt 32) = absolute_percent (VInt 30) (VInt 32)
  /\ percent_cell (VInt 30) (VInt 32) = f_div (of_int 25) (of_int 4).
Proof.
  destruct (heatmap_is_absolute_percent (SInt [30; 60]%Z) (SInt [32; 0]%Z) 0
              (VInt 30) (VInt 32) eq_refl eq_refl eq_refl)
    as (Hrow & _ & _ & Habs & _).
  split; [exact Hrow|]. split.
  - apply Habs. cbn. lia.
  - vm_compute. reflexivity.
Defined.

(** The second row of the sample tables: 60 against 0 divides by zero, and
    the heatmap holds NaN. *)
Example division_by_zero_is_nan :
  percent_diff (SInt [30; 60]%Z) (SInt [32; 0]%Z) !! 1%nat = Some f_nan.
Proof. vm_compute. reflexivity. Qed.

(** The counterexample, run: the heatmap holds 200, the worded value is -200. *)
Example negative_divisor_run :
  percent_diff (SInt [1%Z]) (SInt [(-1)%Z]) = [of_int 200]
  /\ claimed_percent (VInt 1) (VInt (-1)) = of_int (-200)
  /\ absolute_percent (VInt 1) (VInt (-1)) = of_int 200.
Proof. vm_compute. auto. Qed.

(** Columns of different lengths: the rows one of them lacks hold NaN. *)
Example unequal_lengths_run :
  percent_diff (SInt [3; 5; 7]%Z) (SInt [4; 5]%Z) = [of_int 25; S754_zero false; f_nan].
Proof. vm_compute. reflexivity. Qed.

(** *** The loop over the shared columns *)

Lemma mem_elem_of (s : string) (l : list string) : mem s l = true <-> s ∈ l.
Proof.
  unfold mem. rewrite existsb_exists. split.
  - intros (t & Hin & Heq). apply String.eqb_eq in Heq. subst t.
    apply list_elem_of_In, Hin.
  - intros Hin. exists s. split; [apply list_elem_of_In, Hin|apply String.eqb_refl].
Qed.

Lemma elem_of_unique (s : string) (l : list string) : s ∈ unique l <-> s ∈ l.
Proof.
  induction l as [|t l IH]; cbn; [reflexivity|].
  rewrite !elem_of_cons, list_elem_of_filter, IH.
  split; [tauto|].
  intros [->|Hin]; [auto|].
  destruct (String.eqb t s) eqn:Heq.
  - apply String.eqb_eq in Heq. auto.
  - right. split; [exact I|exact Hin].
Qed.

Lemma NoDup_unique (l : list string) : NoDup (unique l).
Proof.
  induction l as [|t l IH]; cbn; [constructor|].
  constructor; [|apply NoDup_filter, IH].
  rewrite list_elem_of_filter, String.eqb_refl. cbn. tauto.
Qed.

Lemma columns_strip (df : frame) : columns (strip_columns df) = map strip (columns df).
Proof. unfold columns, strip_columns. rewrite !map_map. reflexivity. Qed.

(** The shared columns: each header both tables have once stripped, once. *)
Lemma elem_of_common_cols (df_a df_b : frame) (col : string) :
  col ∈ common_cols df_a df_b
  <-> col ∈ map strip (columns df_a) /\ col ∈ map strip (columns df_b).
Proof.
  unfold common_cols, intersection.
  rewrite elem_of_unique, list_elem_of_filter, !columns_strip.
  rewrite <- (mem_elem_of col (map strip (columns df_b))).
  destruct (mem col (map strip (columns df_b))); cbn; intuition congruence.
Qed.

Lemma NoDup_common_cols (df_a df_b : frame) : NoDup (common_cols df_a df_b).
Proof. apply NoDup_unique. Qed.

Lemma getitem_select (df : frame) (col : string) :
  getitem df col = match select df col with Column s => Some s | _ => None end.
Proof. unfold getitem, select. destruct (filter _ df) as [|c [|c' l]]; reflexivity. Qed.

Section Loop.

Variable args : arguments.
Variables df_a df_b df_c : frame.

(** A pass of the loop body that does not raise has produced the two figures
    of its column. *)
Lemma process_column_events (col : string) (evs : list event) :
  process_column args df_a df_b df_c col = (evs, false) ->
  evs = column_events args df_a df_b df_c col.
Proof.
  unfold process_column, column_events.
  rewrite (getitem_select df_c "Theta"), (getitem_select df_c "R (A)").
  destruct (getitem df_a col) as [x|]; [|discriminate].
  destruct (getitem df_b col) as [y|]; [|discriminate].
  destruct (select df_c "Theta") as [|theta|], (select df_c "R (A)") as [|curv_radii|];
    try discriminate;
    (destruct (negb (series_len x =? series_len y)%nat); [discriminate|]);
    (destruct (negb (is_finite _ && is_finite _)); [discriminate|]);
    (destruct (output_dir args) as [out_dir|]; [|discriminate]);
    try discriminate.
  destruct (negb (_ && _)); [discriminate|].
  intros [= <-]. reflexivity.
Qed.

(** On a column of the kind the utility is meant for, the loop body does not
    raise. *)
Lemma process_column_complete (col out_dir : string) :
  output_dir args = Some out_dir ->
  column_ok df_a df_b df_c col = true ->
  process_column args df_a df_b df_c col = (column_events args df_a df_b df_c col, false).
Proof.
  intros Hdir. unfold column_ok, process_column, column_events. rewrite Hdir.
  rewrite (getitem_select df_c "Theta"), (getitem_select df_c "R (A)").
  destruct (getitem df_a col) as [x|]; [|discriminate].
  destruct (getitem df_b col) as [y|]; [|discriminate].
  destruct (select df_c "Theta") as [|theta|]; try discriminate.
  destruct (select df_c "R (A)") as [|curv_radii|]; try discriminate.
  rewrite !andb_true_iff.
  intros [[[[Hxy Htr] Hxt] Hlo] Hhi].
  unfold colours_fit.
  rewrite Hxy, Htr, Hlo, Hhi.
  rewrite percent_diff_length by (apply Nat.eqb_eq, Hxy).
  rewrite Hxt. reflexivity.
Qed.

Lemma plot_columns_events (cols : list string) (evs : list event) :
  plot_columns args df_a df_b df_c cols = (evs, false) ->
  evs = flat_map (column_events args df_a df_b df_c) cols.
Proof.
  revert evs. induction cols as [|col cols IH]; cbn; intros evs.
  - intros [= <-]. reflexivity.
  - destruct (process_column args df_a df_b df_c col) as [evs1 [|]] eqn:Hcol;
      [discriminate|].
    destruct (plot_columns args df_a df_b df_c cols) as [evs2 raised].
    intros [= <- ->].
    rewrite (process_column_events col evs1 Hcol), (IH evs2 eq_refl). reflexivity.
Qed.

Lemma plot_columns_complete (cols : list string) (out_dir : string) :
  output_dir args = Some out_dir ->
  forallb (column_ok df_a df_b df_c) cols = true ->
  plot_columns args df_a df_b df_c cols
  = (flat_map (column_events args df_a df_b df_c) cols, false).
Proof.
  intros Hdir. induction cols as [|col cols IH]; cbn; [reflexivity|].
  rewrite andb_true_iff. intros [Hcol Hcols].
  rewrite (process_column_complete col out_dir Hdir Hcol), (IH Hcols). reflexivity.
Qed.

(** What the loop body has saved when it raises: nothing, or the parity plot
    of its column. *)
Lemma process_column_raised (col : string) (evs : list event) :
  process_column args df_a df_b df_c col = (evs, true) ->
  evs = []
  \/ exists x y out_dir,
       getitem df_a col = Some x /\ getitem df_b col = Some y
       /\ output_dir args = Some out_dir
       /\ evs = saved (show args) (parity_path out_dir col)
                  (ParityPlot (parity_of col x y)).
Proof.
  unfold process_column.
  destruct (getitem df_a col) as [x|]; [|intros [= <-]; auto].
  destruct (getitem df_b col) as [y|]; [|intros [= <-]; auto].
  destruct (select df_c "Theta") as [|theta|], (select df_c "R (A)") as [|curv_radii|];
    try (intros [= <-]; auto; fail);
    (destruct (negb (series_len x =? series_len y)%nat); [intros [= <-]; auto|]);
    (destruct (negb (is_finite _ && is_finite _)); [intros [= <-]; auto|]);
    (destruct (output_dir args) as [out_dir|]; [|intros [= <-]; auto]);
    try (intros [= <-]; right; exists x, y, out_dir; auto; fail).
  destruct (negb (_ && _)); [|discriminate].
  intros [= <-]. right. exists x, y, out_dir. auto.
Qed.

(** The loop does the columns in order up to the first that raises. *)
Lemma plot_columns_prefix (cols : list string) :
  exists done rest partial,
    cols = (done ++ rest)%list
    /\ (plot_columns args df_a df_b df_c cols).1
       = (flat_map (column_events args df_a df_b df_c) done ++ partial)%list
    /\ match rest with
       | [] => partial = [] /\ (plot_columns args df_a df_b df_c cols).2 = false
       | col :: _ =>
           process_column args df_a df_b df_c col = (partial, true)
           /\ (plot_columns args df_a df_b df_c cols).2 = true
       end.
Proof.
  induction cols as [|col cols IH].
  - exists [], [], []. cbn. auto.
  - cbn [plot_columns].
    destruct (process_column args df_a df_b df_c col) as [evs [|]] eqn:Hcol.
    + exists [], (col :: cols), evs. cbn. auto.
    + destruct IH as (done & rest & partial & Hcols & Hevs & Hrest).
      destruct (plot_columns args df_a df_b df_c cols) as [evs' raised].
      cbn in Hevs, Hrest. subst evs'.
      exists (col :: done), rest, partial. cbn.
      rewrite (process_column_events col evs Hcol), Hcols, <- app_assoc.
      repeat split. exact Hrest.
Qed.

End Loop.

(** *** Stripping *)

Lemma list_ascii_append (a b : string) :
  list_ascii_of_string (a +:+ b)
  = (list_ascii_of_string a ++ list_ascii_of_string b)%list.
Proof.
  induction a as [|c a IH]; [reflexivity|].
  change (c :: list_ascii_of_string (a +:+ b)
          = c :: (list_ascii_of_string a ++ list_ascii_of_string b)%list).
  f_equal. exact IH.
Qed.


Lemma after_prefix_Some (p cs rest : list ascii) :
  after_prefix p cs = Some rest <-> cs = (p ++ rest)%list.
Proof.
  revert cs. induction p as [|a p IH]; intros cs; cbn.
  - split; [intros [= ->]; reflexivity|intros ->; reflexivity].
  - destruct cs as [|c cs]; [split; discriminate|].
    destruct (Ascii.eqb_spec a c) as [<-|Hne].
    + rewrite IH. split; [intros ->; reflexivity|intros [= ->]; reflexivity].
    + split; [discriminate|]. intros [= -> _]. congruence.
Qed.

Lemma after_prefix_None (p cs : list ascii) :
  after_prefix p cs = None <-> ~ p `prefix_of` cs.
Proof.
  destruct (after_prefix p cs) as [rest|] eqn:Hp.
  - apply after_prefix_Some in Hp. split; [discriminate|].
    intros Hnot. exfalso. apply Hnot. exists rest. exact Hp.
  - split; [|reflexivity]. intros _ [rest Hrest].
    apply after_prefix_Some in Hrest. congruence.
Qed.

Lemma drop_code_Some (codes : list (list ascii)) (cs rest : list ascii) :
  drop_code codes cs = Some rest -> exists p, p ∈ codes /\ cs = (p ++ rest)%list.
Proof.
  induction codes as [|p codes IH]; cbn; [discriminate|].
  destruct (after_prefix p cs) as [rest'|] eqn:Hp.
  - intros [= ->]. exists p. split; [left|]. apply after_prefix_Some, Hp.
  - intros Hrest. destruct (IH Hrest) as (q & Hq & Hcs). exists q. split; [right|]; assumption.
Qed.

Lemma drop_code_None (codes : list (list ascii)) (cs : list ascii) :
  drop_code codes cs = None <-> forall p, p ∈ codes -> ~ p `prefix_of` cs.
Proof.
  induction codes as [|p codes IH]; cbn.
  - split; [|reflexivity]. intros _ p Hp. inversion Hp.
  - destruct (after_prefix p cs) as [rest|] eqn:Hp.
    + split; [discriminate|]. intros Hnone. exfalso.
      apply (Hnone p); [left|]. exists rest. apply after_prefix_Some, Hp.
    + rewrite IH. split.
      * intros Hnone q Hq. apply elem_of_cons in Hq as [->|Hq]; [|auto].
        apply after_prefix_None, Hp.
      * intros Hnone q Hq. apply Hnone. right. exact Hq.
Qed.

Lemma drop_code_nil (codes : list (list ascii)) :
  Forall (fun p => p <> []) codes -> drop_code codes [] = None.
Proof.
  intros Hcodes. apply drop_code_None. intros p Hp [rest Hrest].
  rewrite Forall_forall in Hcodes. apply (Hcodes p Hp).
  destruct p; [reflexivity|discriminate].
Qed.

Lemma drop_code_shorter (codes : list (list ascii)) (cs rest : list ascii) :
  Forall (fun p => p <> []) codes ->
  drop_code codes cs = Some rest -> (length rest < length cs)%nat.
Proof.
  intros Hcodes Hrest. apply drop_code_Some in Hrest as (p & Hp & ->).
  rewrite Forall_forall in Hcodes. specialize (Hcodes p Hp).
  rewrite length_app. destruct p; [congruence|cbn; lia].
Qed.

(** Enough fuel is as good as more. *)
Lemma lstrip_with_fuel (codes : list (list ascii)) (n m : nat) (cs : list ascii) :
  Forall (fun p => p <> []) codes ->
  (length cs <= n)%nat -> (length cs <= m)%nat ->
  lstrip_with codes n cs = lstrip_with codes m cs.
Proof.
  intros Hcodes. revert m cs. induction n as [|n IH]; intros m cs Hn Hm.
  - destruct cs; [|cbn in Hn; lia]. destruct m; [reflexivity|].
    cbn. rewrite drop_code_nil by exact Hcodes. reflexivity.
  - destruct m as [|m].
    + destruct cs; [|cbn in Hm; lia]. cbn. rewrite drop_code_nil by exact Hcodes. reflexivity.
    + cbn. destruct (drop_code codes cs) as [rest|] eqn:Hrest; [|reflexivity].
      pose proof (drop_code_shorter codes cs rest Hcodes Hrest).
      apply IH; lia.
Qed.

(** What [lstrip_with] takes off is made of the characters of [codes], and
    what it leaves starts with none of them. *)
Lemma lstrip_with_spec (codes : list (list ascii)) (fuel : nat) (cs : list ascii) :
  Forall (fun p => p <> []) codes -> (length cs <= fuel)%nat ->
  exists ws,
    Forall (fun w => w ∈ codes) ws
    /\ cs = (concat ws ++ lstrip_with codes fuel cs)%list
    /\ drop_code codes (lstrip_with codes fuel cs) = None.
Proof.
  intros Hcodes. revert cs. induction fuel as [|fuel IH]; intros cs Hlen.
  - destruct cs; [|cbn in Hlen; lia]. exists []. cbn.
    split; [constructor|]. split; [reflexivity|]. apply drop_code_nil, Hcodes.
  - cbn. destruct (drop_code codes cs) as [rest|] eqn:Hrest.
    + pose proof (drop_code_shorter codes cs rest Hcodes Hrest) as Hshort.
      destruct (IH rest ltac:(lia)) as (ws & Hws & Hcs & Hnone).
      apply drop_code_Some in Hrest as (p & Hp & ->).
      exists (p :: ws). split; [constructor; assumption|]. split; [|exact Hnone].
      cbn [concat]. rewrite <- app_assoc. f_equal. exact Hcs.
    + exists []. split; [constructor|]. split; [reflexivity|exact Hrest].
Qed.

Lemma space_codes_nonempty : Forall (fun p => p <> []) space_codes.
Proof. apply Forall_forall. intros p Hp ->. vm_compute in Hp.
  repeat (apply elem_of_cons in Hp as [Hp|Hp]; [discriminate Hp|]). inversion Hp. Qed.

Lemma rev_codes_nonempty (codes : list (list ascii)) :
  Forall (fun p => p <> []) codes -> Forall (fun p => p <> []) (map (@rev ascii) codes).
Proof.
  intros Hcodes. apply Forall_fmap. eapply Forall_impl; [exact Hcodes|].
  intros p Hp Hrev. apply Hp. cbn in Hrev.
  rewrite <- (rev_involutive p), Hrev. reflexivity.
Qed.

Lemma rev_concat (ws : list (list ascii)) :
  rev (concat ws) = concat (rev (map (@rev ascii) ws)).
Proof.
  induction ws as [|w ws IH]; [reflexivity|].
  cbn [concat map rev]. rewrite rev_app_distr, IH, concat_app. cbn. rewrite app_nil_r.
  reflexivity.
Qed.

(** [strip] takes whitespace off both ends, and all of it. *)
Lemma strip_spec (h : string) :
  exists before after,
    h = before +:+ strip h +:+ after
    /\ whitespace before /\ whitespace after
    /\ (forall p, p ∈ space_codes -> ~ p `prefix_of` list_ascii_of_string (strip h))
    /\ (forall p, p ∈ space_codes -> ~ p `suffix_of` list_ascii_of_string (strip h)).
Proof.
  unfold strip, rstrip, lstrip. set (cs := list_ascii_of_string h).
  destruct (lstrip_with_spec space_codes (length cs) cs space_codes_nonempty (le_n _))
    as (ws1 & Hws1 & Hcs & Hnone1).
  set (u := lstrip_with space_codes (length cs) cs) in *.
  destruct (lstrip_with_spec (map (@rev ascii) space_codes) (length u) (rev u)
              (rev_codes_nonempty _ space_codes_nonempty)
              ltac:(rewrite length_rev; lia))
    as (ws2 & Hws2 & Hu & Hnone2).
  set (v := lstrip_with (map (@rev ascii) space_codes) (length u) (rev u)) in *.
  assert (Hu' : u = (rev v ++ concat (rev (map (@rev ascii) ws2)))%list).
  { rewrite <- rev_concat, <- rev_app_distr, <- Hu, rev_involutive. reflexivity. }
  exists (string_of_list_ascii (concat ws1)),
         (string_of_list_ascii (concat (rev (map (@rev ascii) ws2)))).
  rewrite list_ascii_of_string_of_list_ascii.
  split; [|split; [|split; [|split]]].
  - rewrite <- (string_of_list_ascii_of_string h). fold cs.
    rewrite <- (string_of_list_ascii_of_string (_ +:+ _)).
    f_equal. rewrite !list_ascii_append, !list_ascii_of_string_of_list_ascii.
    rewrite <- Hu'. exact Hcs.
  - exists ws1. split; [exact Hws1|apply list_ascii_of_string_of_list_ascii].
  - exists (rev (map (@rev ascii) ws2)).
    split; [|apply list_ascii_of_string_of_list_ascii].
    apply Forall_rev, Forall_fmap. eapply Forall_impl; [exact Hws2|].
    intros w Hw. cbn. apply list_elem_of_fmap in Hw as (p & -> & Hp).
    rewrite rev_involutive. exact Hp.
  - intros p Hp [k Hk]. apply (proj1 (drop_code_None _ _) Hnone1 p Hp).
    exists (k ++ concat (rev (map (@rev ascii) ws2)))%list.
    rewrite Hu', Hk, <- app_assoc. reflexivity.
  - intros p Hp [k Hk].
    apply (proj1 (drop_code_None _ _) Hnone2 (rev p)).
    + apply list_elem_of_fmap. exists p. auto.
    + exists (rev k). rewrite <- rev_app_distr, <- Hk, rev_involutive. reflexivity.
Qed.

(** *** The columns a run gets to *)

Lemma parity_titles_app (evs evs' : list event) :
  parity_titles (evs ++ evs') = (parity_titles evs ++ parity_titles evs')%list.
Proof. apply flat_map_app. Qed.

Lemma heatmap_titles_app (evs evs' : list event) :
  heatmap_titles (evs ++ evs') = (heatmap_titles evs ++ heatmap_titles evs')%list.
Proof. apply flat_map_app. Qed.

Lemma parity_titles_saved (show_it : bool) (path : string) (fig : figure) :
  parity_titles (saved show_it path fig)
  = match fig with ParityPlot f => [parity_title f] | Heatmap _ => [] end.
Proof. destruct show_it, fig; reflexivity. Qed.

Lemma heatmap_titles_saved (show_it : bool) (path : string) (fig : figure) :
  heatmap_titles (saved show_it path fig)
  = match fig with ParityPlot _ => [] | Heatmap f => [heat_title f] end.
Proof. destruct show_it, fig; reflexivity. Qed.

Section Titles.

Variable args : arguments.
Variables df_a df_b df_c : frame.

(** A pass of the loop body that does not raise has saved one parity plot and
    one heatmap, both titled after its column. *)
Lemma process_column_titles (col : string) (evs : list event) :
  process_column args df_a df_b df_c col = (evs, false) ->
  parity_titles evs = ["Parity plot of results: " +:+ col]
  /\ heatmap_titles evs = ["Heatmap of differences in results: " +:+ col].
Proof.
  unfold process_column.
  destruct (getitem df_a col) as [x|]; [|discriminate].
  destruct (getitem df_b col) as [y|]; [|discriminate].
  destruct (select df_c "Theta") as [|theta|], (select df_c "R (A)") as [|curv_radii|];
    try discriminate;
    (destruct (negb (series_len x =? series_len y)%nat); [discriminate|]);
    (destruct (negb (is_finite _ && is_finite _)); [discriminate|]);
    (destruct (output_dir args) as [out_dir|]; [|discriminate]);
    try discriminate.
  destruct (negb (_ && _)); [discriminate|].
  intros [= <-]. split; destruct (show args); reflexivity.
Qed.

(** A pass that raises has saved no heatmap, and at most the parity plot of
    its column. *)
Lemma process_column_raised_titles (col : string) (evs : list event) :
  process_column args df_a df_b df_c col = (evs, true) ->
  heatmap_titles evs = []
  /\ (parity_titles evs = [] \/ parity_titles evs = ["Parity plot of results: " +:+ col]).
Proof.
  intros Hcol.
  destruct (process_column_raised args df_a df_b df_c col evs Hcol)
    as [-> | (x & y & out_dir & _ & _ & _ & ->)]; [auto|].
  rewrite parity_titles_saved, heatmap_titles_saved. auto.
Qed.

(** The loop goes through the columns in order: both figures for each column
    before the first that raises, at most the parity plot for that one, and
    nothing for the columns after it. *)
Lemma plot_columns_titles (cols : list string) :
  exists done rest,
    cols = (done ++ rest)%list
    /\ heatmap_titles (plot_columns args df_a df_b df_c cols).1
       = map (String.append "Heatmap of differences in results: ") done
    /\ (parity_titles (plot_columns args df_a df_b df_c cols).1
        = map (String.append "Parity plot of results: ") done
        \/ parity_titles (plot_columns args df_a df_b df_c cols).1
           = map (String.append "Parity plot of results: ") (done ++ take 1 rest))
    /\ (rest = [] <-> (plot_columns args df_a df_b df_c cols).2 = false).
Proof.
  induction cols as [|col cols IH].
  - exists [], []. cbn. tauto.
  - cbn [plot_columns].
    destruct (process_column args df_a df_b df_c col) as [evs [|]] eqn:Hcol.
    + exists [], (col :: cols). cbn [app map take fst snd].
      destruct (process_column_raised_titles col evs Hcol) as [-> [-> | ->]];
        (split; [reflexivity|]); (split; [reflexivity|]);
        (split; [auto|]); split; discriminate.
    + destruct IH as (done & rest & Hcols & Hheat & Hparity & Hrest).
      destruct (plot_columns args df_a df_b df_c cols) as [evs' raised].
      cbn [fst snd] in *.
      destruct (process_column_titles col evs Hcol) as [Hp Hh].
      exists (col :: done), rest. rewrite Hcols.
      rewrite parity_titles_app, heatmap_titles_app, Hp, Hh, Hheat.
      split; [reflexivity|]. split; [reflexivity|]. split; [|exact Hrest].
      destruct Hparity as [-> | ->]; [left|right]; reflexivity.
Qed.

End Titles.

(** A no-break space after a header is stripped like any other whitespace:
    the two tables share [Total], and the run plots it. *)
Example no_break_space_is_stripped :
  common_cols atomistic_no_break_space atomcounter_bare = ["Total"]
  /\ ending_of (main arguments_sample atomistic_no_break_space atomcounter_bare input_sample)
     = Completed.
Proof. vm_compute. auto. Qed.

(** C10, counterexample. The sample result tables share two columns, and the
    input table has no column headed [Theta]: the [KeyError] of line 70 ends
    the run in the first pass of the loop, and neither column is processed. *)
Lemma missing_theta_stops_the_loop : ~ processes_the_intersection.
Proof.
  intros Hclaim.
  destruct (Hclaim arguments_sample atomistic_sample atomcounter_sample input_without_theta)
    as [Hparity _]; [vm_compute; discriminate|].
  vm_compute in Hparity. discriminate Hparity.
Qed.

(** C10, amended. The loop goes over the headers that the two result tables
    share once every header is stripped of the whitespace around it, each
    once: [strip] takes whitespace, and all of it, off both ends of a header.
    When no header is shared, and only then, the run ends at [exit] with the
    error message and has saved, shown and printed nothing. Otherwise the run
    goes through the shared columns in order and through no other: it saves
    the two figures of each, up to a column on which an exception ends it, for
    which it has saved at most the parity plot, and it ends without an
    exception exactly when it has done them all. *)
Theorem no_common_columns_exits (args : arguments) (df_a df_b df_c : frame) :
  (forall col, col ∈ common_cols df_a df_b
               <-> col ∈ map strip (columns df_a) /\ col ∈ map strip (columns df_b))
  /\ NoDup (common_cols df_a df_b)
  /\ (forall h, exists before after,
        h = before +:+ strip h +:+ after
        /\ whitespace before /\ whitespace after
        /\ (forall p, p ∈ space_codes -> ~ p `prefix_of` list_ascii_of_string (strip h))
        /\ (forall p, p ∈ space_codes -> ~ p `suffix_of` list_ascii_of_string (strip h)))
  /\ (common_cols df_a df_b = []
      <-> main args df_a df_b df_c
          = Run [] (Exited "Error: the two files share no common column headers."))
  /\ (forall message, ending_of (main args df_a df_b df_c) = Exited message ->
        common_cols df_a df_b = [])
  /\ exists done rest,
       common_cols df_a df_b = (done ++ rest)%list
       /\ heatmap_titles (events (main args df_a df_b df_c))
          = map (String.append "Heatmap of differences in results: ") done
       /\ (parity_titles (events (main args df_a df_b df_c))
           = map (String.append "Parity plot of results: ") done
           \/ parity_titles (events (main args df_a df_b df_c))
              = map (String.append "Parity plot of results: ") (done ++ take 1 rest))
       /\ (rest = [] <-> ending_of (main args df_a df_b df_c) <> Traceback).
Proof.
  split; [intros col; apply elem_of_common_cols|].
  split; [apply NoDup_common_cols|].
  split; [apply strip_spec|].
  unfold main.
  destruct (common_cols df_a df_b) as [|col cols] eqn:Hcols.
  - split; [tauto|]. split; [reflexivity|].
    exists [], []. cbn. repeat split; auto; discriminate.
  - destruct (plot_columns_titles args (strip_columns df_a) (strip_columns df_b)
                (strip_columns df_c) (col :: cols))
      as (done & rest & Hsplit & Hheat & Hparity & Hrest).
    destruct (plot_columns _ _ _ _ (col :: cols)) as [evs raised].
    cbn [fst snd] in *. cbn [events ending_of].
    split; [split; [discriminate|destruct raised; discriminate]|].
    split; [destruct raised; discriminate|].
    exists done, rest. split; [exact Hsplit|]. split; [exact Hheat|].
    split; [exact Hparity|].
    rewrite Hrest. destruct raised; split; congruence.
Qed.

(** The sample tables head one column [" Total"] and ["Total"], another
    ["Perimeter"] and ["Perimeter "]: both are shared. *)
Lemma no_common_columns_exits_sample :
  "Total" ∈ common_cols atomistic_sample atomcounter_sample
  /\ "Perimeter" ∈ common_cols atomistic_sample atomcounter_sample.
Proof.
  pose proof (proj1 (no_common_columns_exits arguments_sample atomistic_sample
                       atomcounter_sample input_sample)) as Hshared.
  split; apply Hshared; vm_compute; split; repeat constructor.
Defined.

(** *** Each column's figures are counted once *)

Lemma append_eqb (prefix a b : string) :
  String.eqb (prefix +:+ a) (prefix +:+ b) = String.eqb a b.
Proof.
  destruct (String.eqb_spec a b) as [->|Hne]; [apply String.eqb_refl|].
  apply String.eqb_neq. intros H. apply Hne.
  induction prefix as [|c prefix IH]; cbn in H; [exact H|].
  injection H. exact IH.
Qed.

Lemma count_events_app (p : event -> bool) (evs1 evs2 : list event) :
  count_events p (evs1 ++ evs2) = (count_events p evs1 + count_events p evs2)%nat.
Proof. unfold count_events. rewrite List.filter_app, length_app. reflexivity. Qed.

Lemma count_events_saved (p : event -> bool) (show_it : bool) (path : string) (fig : figure) :
  (forall fig', p (ShowFig fig') = false) -> (forall line, p (Print line) = false) ->
  count_events p (saved show_it path fig) = if p (SaveFig path fig) then 1%nat else 0%nat.
Proof.
  intros Hshow Hprint. unfold saved, count_events.
  destruct show_it; cbn; rewrite ?Hshow, ?Hprint; destruct (p (SaveFig path fig)); reflexivity.
Qed.

Section Counting.

Variable args : arguments.
Variables df_a df_b df_c : frame.

Lemma count_parity_column (col c : string) :
  count_events (is_parity_plot_of col) (column_events args df_a df_b df_c c)
  = match column_events args df_a df_b df_c c with
    | [] => 0%nat
    | _ => if String.eqb c col then 1%nat else 0%nat
    end.
Proof.
  unfold column_events.
  destruct (getitem df_a c), (getitem df_b c), (getitem df_c "Theta"),
    (getitem df_c "R (A)"), (output_dir args); try reflexivity.
  rewrite count_events_app, !count_events_saved by reflexivity.
  cbn [is_parity_plot_of parity_of parity_title saved app].
  rewrite append_eqb. destruct (String.eqb c col); reflexivity.
Qed.

Lemma count_heatmap_column (col c : string) :
  count_events (is_heatmap_of col) (column_events args df_a df_b df_c c)
  = match column_events args df_a df_b df_c c with
    | [] => 0%nat
    | _ => if String.eqb c col then 1%nat else 0%nat
    end.
Proof.
  unfold column_events.
  destruct (getitem df_a c), (getitem df_b c), (getitem df_c "Theta"),
    (getitem df_c "R (A)"), (output_dir args); try reflexivity.
  rewrite count_events_app, !count_events_saved by reflexivity.
  cbn [is_heatmap_of heatmap_of heat_title saved app].
  rewrite append_eqb. destruct (String.eqb c col); reflexivity.
Qed.

Lemma count_flat_map_one (p : event -> bool) (cols : list string) (col : string) :
  NoDup cols -> col ∈ cols ->
  column_events args df_a df_b df_c col <> [] ->
  (forall c, count_events p (column_events args df_a df_b df_c c)
             = match column_events args df_a df_b df_c c with
               | [] => 0%nat
               | _ => if String.eqb c col then 1%nat else 0%nat
               end) ->
  count_events p (flat_map (column_events args df_a df_b df_c) cols) = 1%nat.
Proof.
  intros Hnodup Hin Hsome Hcount.
  assert (Hout : forall l, col ∉ l ->
            count_events p (flat_map (column_events args df_a df_b df_c) l) = 0%nat).
  { induction l as [|c l IH]; intros Hnotin; [reflexivity|].
    apply not_elem_of_cons in Hnotin as [Hne Hnotin].
    cbn [flat_map]. rewrite count_events_app, Hcount, IH by exact Hnotin.
    destruct (String.eqb_spec c col) as [->|_]; [congruence|].
    destruct (column_events _ _ _ _ c); reflexivity. }
  induction Hnodup as [|c l Hc Hl IH]; [inversion Hin|].
  cbn [flat_map]. rewrite count_events_app, Hcount.
  apply elem_of_cons in Hin as [<-|Hin].
  - rewrite String.eqb_refl, Hout by exact Hc.
    destruct (column_events _ _ _ _ col); [congruence|reflexivity].
  - rewrite IH by exact Hin.
    destruct (String.eqb_spec c col) as [->|_]; [contradiction|].
    destruct (column_events _ _ _ _ c); reflexivity.
Qed.

End Counting.

(** *** The joint range of two integer columns *)


Lemma fold_min_spec (v : list Z) (z : Z) :
  fold_left Z.min v z ∈ z :: v /\ forall w, w ∈ z :: v -> (fold_left Z.min v z <= w)%Z.
Proof.
  revert z. induction v as [|a v IH]; intros z; cbn [fold_left].
  - split; [left|]. intros w Hw. apply list_elem_of_singleton in Hw. lia.
  - destruct (IH (Z.min z a)) as [Hin Hle]. split.
    + rewrite !elem_of_cons in *.
      destruct (Z.min_spec z a) as [[_ Hm]|[_ Hm]]; rewrite Hm in *; tauto.
    + intros w Hw.
      assert (Hm : (fold_left Z.min v (Z.min z a) <= Z.min z a)%Z) by (apply Hle; left).
      apply elem_of_cons in Hw as [->|Hw]; [lia|].
      apply elem_of_cons in Hw as [->|Hw]; [lia|].
      apply Hle. right. exact Hw.
Qed.

Lemma fold_max_spec (v : list Z) (z : Z) :
  fold_left Z.max v z ∈ z :: v /\ forall w, w ∈ z :: v -> (w <= fold_left Z.max v z)%Z.
Proof.
  revert z. induction v as [|a v IH]; intros z; cbn [fold_left].
  - split; [left|]. intros w Hw. apply list_elem_of_singleton in Hw. lia.
  - destruct (IH (Z.max z a)) as [Hin Hle]. split.
    + rewrite !elem_of_cons in *.
      destruct (Z.max_spec z a) as [[_ Hm]|[_ Hm]]; rewrite Hm in *; tauto.
    + intros w Hw.
      assert (Hm : (Z.max z a <= fold_left Z.max v (Z.max z a))%Z) by (apply Hle; left).
      apply elem_of_cons in Hw as [->|Hw]; [lia|].
      apply elem_of_cons in Hw as [->|Hw]; [lia|].
      apply Hle. right. exact Hw.
Qed.

(** Between two integer columns with rows, the limits start from the least and
    the greatest value found in either. *)
Lemma joint_range_int (u v : list Z) :
  u <> [] -> v <> [] ->
  exists lo hi,
    joint_lo (SInt u) (SInt v) = VInt lo /\ joint_hi (SInt u) (SInt v) = VInt hi
    /\ (lo ∈ u \/ lo ∈ v) /\ (hi ∈ u \/ hi ∈ v)
    /\ forall w, w ∈ u \/ w ∈ v -> (lo <= w <= hi)%Z.
Proof.
  destruct u as [|a u]; [congruence|]. destruct v as [|b v]; [congruence|].
  intros _ _. unfold joint_lo, joint_hi, py_min, py_max. cbn.
  destruct (fold_min_spec u a) as [Hu1 Hu2], (fold_min_spec v b) as [Hv1 Hv2].
  destruct (fold_max_spec u a) as [Hu3 Hu4], (fold_max_spec v b) as [Hv3 Hv4].
  destruct (Z.ltb_spec (fold_left Z.min v b) (fold_left Z.min u a)),
    (Z.ltb_spec (fold_left Z.max u a) (fold_left Z.max v b));
    eexists _, _; (split; [reflexivity|]); (split; [reflexivity|]);
    (split; [auto|]); (split; [auto|]);
    intros w [Hw|Hw]; specialize (Hu2 w); specialize (Hv2 w);
    specialize (Hu4 w); specialize (Hv4 w); try specialize (Hu2 Hw); try specialize (Hv2 Hw); 
    try specialize (Hu4 Hw); try specialize (Hv4 Hw); lia.
Qed.

(** *** The order of [float64] and the joint range *)

Lemma f_ltb_key (a b : float64) :
  is_nan a = false -> is_nan b = false ->
  (f_ltb a b = true <-> key_lt (order_key a) (order_key b)).
Proof.
  unfold f_ltb, SFltb, key_lt.
  destruct a as [sa|sa| |sa ma ea], b as [sb|sb| |sb mb eb]; try discriminate;
    intros _ _; try destruct sa; try destruct sb; cbn;
    try (split; [discriminate|lia]); try (split; [lia|reflexivity]).
  - change (Pos.compare_cont Eq ma mb) with (Pos.compare ma mb).
    destruct (Z.compare_spec ea eb), (Pos.compare_spec ma mb); cbn;
      split; try discriminate; try lia; reflexivity.
  - change (Pos.compare_cont Eq ma mb) with (Pos.compare ma mb).
    destruct (Z.compare_spec ea eb), (Pos.compare_spec ma mb); cbn;
      split; try discriminate; try lia; reflexivity.
Qed.

Lemma is_nan_true (a : float64) : is_nan a = true <-> a = f_nan.
Proof. destruct a; split; try discriminate; reflexivity. Qed.

Lemma f_ltb_nan_l (b : float64) : f_ltb f_nan b = false.
Proof. reflexivity. Qed.

Lemma f_ltb_nan_r (a : float64) : f_ltb a f_nan = false.
Proof. destruct a as [[|]|[|]| |[|] m e]; reflexivity. Qed.

Lemma f_ltb_irrefl (a : float64) : f_ltb a a = false.
Proof.
  destruct (is_nan a) eqn:Ha; [apply is_nan_true in Ha; subst a; reflexivity|].
  apply not_true_is_false. rewrite (f_ltb_key a a Ha Ha). unfold key_lt. lia.
Qed.

Lemma f_ltb_asym (a b : float64) : f_ltb a b = true -> f_ltb b a = false.
Proof.
  intros Hab.
  destruct (is_nan a) eqn:Ha; [apply is_nan_true in Ha; subst a; discriminate|].
  destruct (is_nan b) eqn:Hb;
    [apply is_nan_true in Hb; subst b; rewrite f_ltb_nan_r in Hab; discriminate|].
  apply not_true_is_false. rewrite (f_ltb_key b a Hb Ha).
  apply (f_ltb_key a b Ha Hb) in Hab. unfold key_lt in *. lia.
Qed.

(** Between numbers that are not NaN, not being less is transitive. *)
Lemma f_ltb_false_trans (a b c : float64) :
  is_nan a = false -> is_nan b = false -> is_nan c = false ->
  f_ltb a b = false -> f_ltb b c = false -> f_ltb a c = false.
Proof.
  intros Ha Hb Hc Hab Hbc. apply not_true_is_false. intros Hac.
  apply (f_ltb_key a c Ha Hc) in Hac.
  apply not_true_iff_false in Hab, Hbc.
  rewrite (f_ltb_key a b Ha Hb) in Hab. rewrite (f_ltb_key b c Hb Hc) in Hbc.
  unfold key_lt in *. lia.
Qed.

Lemma fold_float_min_spec (l : list float64) (acc : float64) :
  is_nan acc = false -> Forall (fun w => is_nan w = false) l ->
  fold_left float_min l acc ∈ acc :: l
  /\ forall w, w ∈ acc :: l -> f_ltb w (fold_left float_min l acc) = false.
Proof.
  revert acc. induction l as [|b l IH]; intros acc Hacc Hl; cbn [fold_left].
  - split; [left|]. intros w Hw. apply list_elem_of_singleton in Hw as ->. apply f_ltb_irrefl.
  - apply Forall_cons in Hl as [Hb Hl].
    assert (Hacc' : is_nan (float_min acc b) = false)
      by (unfold float_min; destruct (f_ltb b acc); assumption).
    destruct (IH (float_min acc b) Hacc' Hl) as [Hin Hle].
    set (r := fold_left float_min l (float_min acc b)) in *.
    assert (Hr : is_nan r = false).
    { apply elem_of_cons in Hin as [-> | Hin]; [exact Hacc'|].
      rewrite Forall_forall in Hl. apply Hl, Hin. }
    assert (Hfirst : f_ltb (float_min acc b) r = false) by (apply Hle; left).
    split.
    + apply elem_of_cons in Hin as [Hin | Hin]; [|right; right; exact Hin].
      rewrite Hin. unfold float_min. destruct (f_ltb b acc); [right; left|left].
    + intros w Hw. unfold float_min in Hfirst.
      apply elem_of_cons in Hw as [-> | Hw]; [|apply elem_of_cons in Hw as [-> | Hw]].
      * destruct (f_ltb b acc) eqn:Hlt; [|exact Hfirst].
        apply (f_ltb_false_trans acc b r); auto using f_ltb_asym.
      * destruct (f_ltb b acc) eqn:Hlt; [exact Hfirst|].
        apply (f_ltb_false_trans b acc r); auto.
      * apply Hle. right. exact Hw.
Qed.

Lemma fold_float_max_spec (l : list float64) (acc : float64) :
  is_nan acc = false -> Forall (fun w => is_nan w = false) l ->
  fold_left float_max l acc ∈ acc :: l
  /\ forall w, w ∈ acc :: l -> f_ltb (fold_left float_max l acc) w = false.
Proof.
  revert acc. induction l as [|b l IH]; intros acc Hacc Hl; cbn [fold_left].
  - split; [left|]. intros w Hw. apply list_elem_of_singleton in Hw as ->. apply f_ltb_irrefl.
  - apply Forall_cons in Hl as [Hb Hl].
    assert (Hacc' : is_nan (float_max acc b) = false)
      by (unfold float_max; destruct (f_ltb acc b); assumption).
    destruct (IH (float_max acc b) Hacc' Hl) as [Hin Hle].
    set (r := fold_left float_max l (float_max acc b)) in *.
    assert (Hr : is_nan r = false).
    { apply elem_of_cons in Hin as [-> | Hin]; [exact Hacc'|].
      rewrite Forall_forall in Hl. apply Hl, Hin. }
    assert (Hfirst : f_ltb r (float_max acc b) = false) by (apply Hle; left).
    split.
    + apply elem_of_cons in Hin as [Hin | Hin]; [|right; right; exact Hin].
      rewrite Hin. unfold float_max. destruct (f_ltb acc b); [right; left|left].
    + intros w Hw. unfold float_max in Hfirst.
      apply elem_of_cons in Hw as [-> | Hw]; [|apply elem_of_cons in Hw as [-> | Hw]].
      * destruct (f_ltb acc b) eqn:Hlt; [|exact Hfirst].
        apply (f_ltb_false_trans r b acc); auto using f_ltb_asym.
      * destruct (f_ltb acc b) eqn:Hlt; [exact Hfirst|].
        apply (f_ltb_false_trans r acc b); auto.
      * apply Hle. right. exact Hw.
Qed.

(** [Series.min()] and [Series.max()] find the least and the greatest. *)
Lemma series_min_spec (s : series) : is_min_of s (series_min s).
Proof.
  destruct s as [[|z v]|v]; cbn [series_min is_min_of].
  - auto.
  - destruct (fold_min_spec v z) as [Hin Hle]. auto.
  - unfold nan_reduce.
    destruct (filter (fun f => is_nan f = false) v) as [|f rest] eqn:Hfilter.
    + left. split; [reflexivity|]. intros w Hw. apply is_nan_true.
      destruct (is_nan w) eqn:Hnan; [reflexivity|]. exfalso.
      assert (Hin : w ∈ filter (fun f => is_nan f = false) v)
        by (apply list_elem_of_filter; auto).
      rewrite Hfilter in Hin. inversion Hin.
    + right.
      assert (Hall : Forall (fun w => w ∈ v /\ is_nan w = false) (f :: rest)).
      { rewrite <- Hfilter. apply Forall_forall. intros w Hw.
        apply list_elem_of_filter in Hw. tauto. }
      apply Forall_cons in Hall as [[Hf_in Hf] Hrest].
      destruct (fold_float_min_spec rest f Hf) as [Hin Hle].
      { eapply Forall_impl; [exact Hrest|]. cbn. tauto. }
      set (r := fold_left float_min rest f) in *.
      assert (Hr : r ∈ v /\ is_nan r = false).
      { apply elem_of_cons in Hin as [-> | Hin]; [auto|].
        rewrite Forall_forall in Hrest. apply Hrest, Hin. }
      split; [apply Hr|]. split; [apply Hr|].
      intros w Hw. destruct (is_nan w) eqn:Hnan.
      * apply is_nan_true in Hnan. subst w. reflexivity.
      * apply Hle. rewrite <- Hfilter. apply list_elem_of_filter. auto.
Qed.

Lemma series_max_spec (s : series) : is_max_of s (series_max s).
Proof.
  destruct s as [[|z v]|v]; cbn [series_max is_max_of].
  - auto.
  - destruct (fold_max_spec v z) as [Hin Hle]. auto.
  - unfold nan_reduce.
    destruct (filter (fun f => is_nan f = false) v) as [|f rest] eqn:Hfilter.
    + left. split; [reflexivity|]. intros w Hw. apply is_nan_true.
      destruct (is_nan w) eqn:Hnan; [reflexivity|]. exfalso.
      assert (Hin : w ∈ filter (fun f => is_nan f = false) v)
        by (apply list_elem_of_filter; auto).
      rewrite Hfilter in Hin. inversion Hin.
    + right.
      assert (Hall : Forall (fun w => w ∈ v /\ is_nan w = false) (f :: rest)).
      { rewrite <- Hfilter. apply Forall_forall. intros w Hw.
        apply list_elem_of_filter in Hw. tauto. }
      apply Forall_cons in Hall as [[Hf_in Hf] Hrest].
      destruct (fold_float_max_spec rest f Hf) as [Hin Hle].
      { eapply Forall_impl; [exact Hrest|]. cbn. tauto. }
      set (r := fold_left float_max rest f) in *.
      assert (Hr : r ∈ v /\ is_nan r = false).
      { apply elem_of_cons in Hin as [-> | Hin]; [auto|].
        rewrite Forall_forall in Hrest. apply Hrest, Hin. }
      split; [apply Hr|]. split; [apply Hr|].
      intros w Hw. destruct (is_nan w) eqn:Hnan.
      * apply is_nan_true in Hnan. subst w. apply f_ltb_nan_r.
      * apply Hle. rewrite <- Hfilter. apply list_elem_of_filter. auto.
Qed.

Lemma scalar_ltb_irrefl (a : scalar) : scalar_ltb a a = false.
Proof. destruct a; cbn; [apply Z.ltb_irrefl|apply f_ltb_irrefl]. Qed.

Lemma scalar_ltb_asym (a b : scalar) : scalar_ltb a b = true -> scalar_ltb b a = false.
Proof.
  destruct a, b; cbn; try apply f_ltb_asym.
  intros Hlt. apply Z.ltb_lt in Hlt. apply Z.ltb_ge. lia.
Qed.

Lemma scalar_ltb_less_than (a b : scalar) : scalar_ltb a b = true <-> less_than a b.
Proof. destruct a, b; cbn; try reflexivity. apply Z.ltb_lt. Qed.

(** [lo] is the lesser of the two least values, [hi] the greater of the two
    greatest. *)
Lemma joint_lo_spec (x y : series) :
  exists mx my,
    is_min_of x mx /\ is_min_of y my
    /\ (joint_lo x y = mx \/ joint_lo x y = my)
    /\ ~ less_than mx (joint_lo x y) /\ ~ less_than my (joint_lo x y).
Proof.
  exists (series_min x), (series_min y).
  split; [apply series_min_spec|]. split; [apply series_min_spec|].
  rewrite <- !scalar_ltb_less_than. unfold joint_lo, py_min.
  destruct (scalar_ltb (series_min y) (series_min x)) eqn:Hlt.
  - split; [auto|].
    rewrite (scalar_ltb_asym _ _ Hlt), scalar_ltb_irrefl. split; discriminate.
  - split; [auto|]. rewrite scalar_ltb_irrefl, Hlt. split; discriminate.
Qed.

Lemma joint_hi_spec (x y : series) :
  exists mx my,
    is_max_of x mx /\ is_max_of y my
    /\ (joint_hi x y = mx \/ joint_hi x y = my)
    /\ ~ less_than (joint_hi x y) mx /\ ~ less_than (joint_hi x y) my.
Proof.
  exists (series_max x), (series_max y).
  split; [apply series_max_spec|]. split; [apply series_max_spec|].
  rewrite <- !scalar_ltb_less_than. unfold joint_hi, py_max.
  destruct (scalar_ltb (series_max x) (series_max y)) eqn:Hlt.
  - split; [auto|].
    rewrite (scalar_ltb_asym _ _ Hlt), scalar_ltb_irrefl. split; discriminate.
  - split; [auto|]. rewrite scalar_ltb_irrefl, Hlt. split; discriminate.
Qed.

(** The limits, from [lo] and [hi]. *)
Lemma padded_limits (x y : series) :
  let lo := joint_lo x y in
  let hi := joint_hi x y in
  let range := match hi, lo with
               | VInt p, VInt q => of_int (wrap64 (p - q))
               | _, _ => f_sub (float_of hi) (float_of lo)
               end in
  let five_percent := f_div (of_int 5) (of_int 100) in
  padded_lo x y = f_sub (float_of lo) (f_mul five_percent range)
  /\ padded_hi x y = f_add (float_of hi) (f_mul five_percent range).
Proof.
  change (f_div (of_int 5) (of_int 100)) with f_0_05.
  unfold padded_lo, padded_hi, pad, scalar_sub.
  destruct (joint_hi x y), (joint_lo x y); split; reflexivity.
Qed.

(** What [plt.scatter] accepts as colours. *)
Lemma colours_fit_cases (c : list float64) (n : nat) :
  colours_fit c n = true ->
  length c = n
  \/ (length c = 3%nat \/ length c = 4%nat)
     /\ forall v, v ∈ c -> f_ltb v (of_int 0) = false /\ f_ltb (of_int 1) v = false.
Proof.
  unfold colours_fit. rewrite orb_true_iff, andb_true_iff, orb_true_iff, !Nat.eqb_eq.
  intros [Hn | [Hrgb Hunit]]; [auto|]. right. split; [exact Hrgb|].
  intros v Hv. rewrite forallb_forall in Hunit.
  specialize (Hunit v (proj1 (list_elem_of_In _ _) Hv)).
  unfold in_unit in Hunit. apply andb_true_iff in Hunit as [H0 H1].
  apply negb_true_iff in H0, H1. auto.
Qed.

(** *** What a run that completes has produced *)

Section Completed.

Variable args : arguments.
Variables df_a df_b df_c : frame.

(** A pass of the loop body that does not raise: what it found and what it
    saved. *)
Lemma process_column_done (col : string) (evs : list event) :
  process_column args df_a df_b df_c col = (evs, false) ->
  exists x y theta curv_radii out_dir,
    getitem df_a col = Some x /\ getitem df_b col = Some y
    /\ getitem df_c "Theta" = Some theta /\ getitem df_c "R (A)" = Some curv_radii
    /\ output_dir args = Some out_dir
    /\ series_len x = series_len y
    /\ is_finite (padded_lo x y) = true /\ is_finite (padded_hi x y) = true
    /\ series_len theta = series_len curv_radii
    /\ colours_fit (percent_diff x y) (series_len theta) = true
    /\ evs = (saved (show args) (parity_path out_dir col) (ParityPlot (parity_of col x y))
              ++ saved (show args) (heatmap_path out_dir col)
                   (Heatmap (heatmap_of col theta curv_radii (percent_diff x y))))%list.
Proof.
  unfold process_column.
  rewrite (getitem_select df_c "Theta"), (getitem_select df_c "R (A)").
  destruct (getitem df_a col) as [x|]; [|discriminate].
  destruct (getitem df_b col) as [y|]; [|discriminate].
  destruct (select df_c "Theta") as [|theta|], (select df_c "R (A)") as [|curv_radii|];
    try discriminate;
    (destruct (series_len x =? series_len y)%nat eqn:Hxy; [|discriminate]);
    (destruct (is_finite (padded_lo x y)) eqn:Hlo; [|discriminate]);
    (destruct (is_finite (padded_hi x y)) eqn:Hhi; [|discriminate]);
    (destruct (output_dir args) as [out_dir|]; [|discriminate]);
    try discriminate.
  cbn [negb andb].
  destruct (series_len theta =? series_len curv_radii)%nat eqn:Htr; [|discriminate].
  destruct (colours_fit (percent_diff x y) (series_len theta)) eqn:Hfit; [|discriminate].
  cbn [negb andb]. intros [= <-].
  apply Nat.eqb_eq in Hxy, Htr.
  exists x, y, theta, curv_radii, out_dir. repeat (split; [auto; fail|]). reflexivity.
Qed.

(** In a loop that ends without an exception no pass has raised. *)
Lemma plot_columns_all (cols : list string) (evs : list event) (col : string) :
  plot_columns args df_a df_b df_c cols = (evs, false) -> col ∈ cols ->
  exists evs', process_column args df_a df_b df_c col = (evs', false).
Proof.
  revert evs. induction cols as [|c cols IH]; intros evs Hplot Hcol; [inversion Hcol|].
  cbn [plot_columns] in Hplot.
  destruct (process_column args df_a df_b df_c c) as [evs1 [|]] eqn:Hc; [discriminate|].
  destruct (plot_columns args df_a df_b df_c cols) as [evs2 raised] eqn:Hrest.
  injection Hplot as _ ->.
  apply elem_of_cons in Hcol as [-> | Hcol]; [eauto|].
  exact (IH evs2 eq_refl Hcol).
Qed.

End Completed.




End ParityProps.

(** ** Properties of the catalog and of the row pipeline *)

Module EngineProps.
Import Engine.

Section Catalog.

Context {density : Type}.

(** The default facet of an element always has an areal density. *)
Lemma default_facet_known (e : element_entry density) :
  areal_densities e !! default_facet e = Some (default_areal_density e).
Proof. unfold areal_densities. apply lookup_insert_eq. Qed.

(** A blank field never fails; a facet that is given fails exactly when the
    element has no areal density for it. *)
Lemma facet_density_cases (e : element_entry density) (field : option string) :
  match field with
  | None => facet_density e field = Ok (default_areal_density e)
  | Some facet =>
      match areal_densities e !! facet with
      | Some d => facet_density e field = Ok d
      | None => facet_density e field = Raise UnknownFacet
      end
  end.
Proof.
  unfold facet_density. destruct field as [facet|]; cbn [resolve_facet].
  - destruct (areal_densities e !! facet); reflexivity.
  - rewrite default_facet_known. reflexivity.
Qed.

Lemma facet_density_raises (e : element_entry density) (field : option string) (err : error) :
  facet_density e field = Raise err
  <-> err = UnknownFacet
      /\ exists facet, field = Some facet /\ areal_densities e !! facet = None.
Proof.
  pose proof (facet_density_cases e field) as Hcases.
  destruct field as [facet|].
  - destruct (areal_densities e !! facet) as [d|] eqn:Hd; rewrite Hcases; split.
    + discriminate.
    + intros (_ & facet' & [= <-] & Hnone). congruence.
    + intros [= <-]. eauto.
    + intros [-> _]. reflexivity.
  - rewrite Hcases. split; [discriminate|]. intros (_ & facet & Hfacet & _). discriminate.
Qed.

Lemma lookup_bulk_density_raises (cat : catalog density) (element : string) (err : error) :
  lookup_bulk_density cat element = Raise err
  <-> err = UnknownElement /\ cat !! element = None.
Proof.
  unfold lookup_bulk_density. destruct (cat !! element) as [e|].
  - split; [discriminate|]. intros [_ [=]].
  - split; [intros [= <-]; auto|]. intros [-> _]. reflexivity.
Qed.

Lemma lookup_areal_density_raises (cat : catalog density) (element : string)
    (field : option string) (err : error) :
  lookup_areal_density cat element field = Raise err
  <-> (err = UnknownElement /\ cat !! element = None)
      \/ (err = UnknownFacet
          /\ exists e facet, cat !! element = Some e /\ field = Some facet
               /\ areal_densities e !! facet = None).
Proof.
  unfold lookup_areal_density. destruct (cat !! element) as [e|].
  - rewrite facet_density_raises. split.
    + intros (-> & facet & -> & Hnone). right. eauto 10.
    + intros [[_ [=]] | (-> & e' & facet & [= <-] & -> & Hnone)]. eauto.
  - split; [intros [= <-]; auto|].
    intros [[-> _] | (_ & e & facet & [=] & _)]. reflexivity.
Qed.

Lemma row_densities_raises (cat : catalog density) (element : string)
    (interface_facet surface_facet : option string) (err : error) :
  row_densities cat element interface_facet surface_facet = Raise err
  <-> (err = UnknownElement /\ cat !! element = None)
      \/ (err = UnknownFacet
          /\ exists e facet,
               cat !! element = Some e
               /\ (interface_facet = Some facet \/ surface_facet = Some facet)
               /\ areal_densities e !! facet = None).
Proof.
  unfold row_densities.
  destruct (lookup_bulk_density cat element) as [bulk|err'] eqn:Hbulk.
  - assert (Hknown : exists e, cat !! element = Some e).
    { unfold lookup_bulk_density in Hbulk. destruct (cat !! element); [eauto|discriminate]. }
    destruct Hknown as [e He].
    destruct (lookup_areal_density cat element interface_facet) as [interface|err1] eqn:Hi.
    + destruct (lookup_areal_density cat element surface_facet) as [surface|err2] eqn:Hs.
      * split; [discriminate|].
        intros [[_ Hnone] | (_ & e' & facet & He' & [-> | ->] & Hnone)]; [congruence| |].
        -- assert (Hraise : lookup_areal_density cat element (Some facet) = Raise UnknownFacet)
             by (apply lookup_areal_density_raises; right; eauto 10).
           congruence.
        -- assert (Hraise : lookup_areal_density cat element (Some facet) = Raise UnknownFacet)
             by (apply lookup_areal_density_raises; right; eauto 10).
           congruence.
      * apply lookup_areal_density_raises in Hs. split.
        -- intros [= <-]. destruct Hs as [[_ Hnone] | (-> & e' & facet & He' & -> & Hnone)];
             [congruence|]. right. eauto 10.
        -- intros [[_ Hnone] | (-> & _)]; [congruence|].
           destruct Hs as [[_ Hnone] | (-> & _)]; [congruence|reflexivity].
    + apply lookup_areal_density_raises in Hi. split.
      * intros [= <-]. destruct Hi as [[_ Hnone] | (-> & e' & facet & He' & -> & Hnone)];
          [congruence|]. right. eauto 10.
      * intros [[_ Hnone] | (-> & _)]; [congruence|].
        destruct Hi as [[_ Hnone] | (-> & _)]; [congruence|reflexivity].
  - apply lookup_bulk_density_raises in Hbulk as [-> Hnone]. split.
    + intros [= <-]. auto.
    + intros [[-> _] | (_ & e & facet & He & _)]; [reflexivity|congruence].
Qed.

(** The catalog as a table of entries, read through its elements. *)
Lemma bulk_entry_None (cat : catalog density) (element : string) :
  density_entry cat (Bulk element) = None <-> cat !! element = None.
Proof. cbn. apply fmap_None. Qed.

Lemma facet_entry (cat : catalog density) (element facet : string) (e : element_entry density) :
  cat !! element = Some e ->
  density_entry cat (Facet element facet) = areal_densities e !! facet.
Proof. intros He. cbn. rewrite He. reflexivity. Qed.

End Catalog.



(** C2. A row whose [size_small] is present gives the same result whatever its
    [size_large] field holds: the pipeline hands the engine [size_small] and
    the other fields, and nothing of [size_large]. *)
Theorem size_large_ignored_when_size_small_present
    {number count_result : Type}
    (count : size number -> number -> string -> option string -> option string ->
             string -> outcome count_result)
    (mode : string) (row : input_row number) (R1 R2 : option number) :
  is_Some (size_small row) ->
  process_row count mode (with_size_large row R1)
  = process_row count mode (with_size_large row R2).
Proof.
  intros [r Hr]. unfold process_row, effective_size, with_size_large. cbn.
  rewrite Hr. reflexivity.
Qed.

(** The sample row holds r = 100: with R = 50 or R = 70 the engine is handed
    r. *)
Lemma size_large_ignored_when_size_small_present_sample :
  process_row echo_size "volume" (with_size_large sample_row (Some 50%Z))
  = process_row echo_size "volume" (with_size_large sample_row (Some 70%Z)).
Proof.
  apply (size_large_ignored_when_size_small_present echo_size "volume" sample_row).
  eexists. reflexivity.
Defined.

End EngineProps.

(** ** More about the front end *)

Module AppExtras.
Import App AppProps.

Lemma string_length_append (a b : string) :
  String.length (a +:+ b) = (String.length a + String.length b)%nat.
Proof.
  induction a as [|c a IH]; [reflexivity|].
  change (S (String.length (a +:+ b)) = S (String.length a + String.length b)).
  f_equal. exact IH.
Qed.

Lemma filler_length (n : nat) : String.length (filler n) = n.
Proof. induction n as [|n IH]; cbn; [reflexivity|]. f_equal. exact IH. Qed.

(** The sample [mkstemp] never names a file that is already there. *)
Lemma mkstemp_longer_exclusive : mkstemp_exclusive mkstemp_longer.
Proof.
  intros suffix d. destruct (d !! mkstemp_longer suffix d) as [bytes|] eqn:Hin;
    [exfalso|reflexivity].
  apply elem_of_dom_2, elem_of_elements in Hin.
  apply (list_elem_of_fmap_2 String.length), max_list_elem_of_le in Hin.
  unfold mkstemp_longer in Hin.
  rewrite !string_length_append, filler_length in Hin. cbn in Hin. lia.
Qed.

Section Script.

Context {D : Type}.
Variable read_csv : list byte -> csv_result D.
Variable atom_counter : string -> string -> string -> disk -> engine_result * disk.
Variable path_suffix : string -> string.
Variable mkstemp_name : string -> disk -> string.

Local Abbreviation reserve := (reserve path_suffix mkstemp_name).
Local Abbreviation invoke_and_display := (invoke_and_display read_csv atom_counter).
Local Abbreviation run_calculation :=
  (run_calculation read_csv atom_counter path_suffix mkstemp_name).
Local Abbreviation script := (script read_csv atom_counter path_suffix mkstemp_name).

Lemma no_engine_call_among_shown (rest : list (event D)) :
  Forall (fun ev => exists el, ev = Shown el) rest ->
  List.filter is_engine_call rest = [].
Proof.
  induction 1 as [|ev rest [el ->] _ IH]; [reflexivity|]. cbn. exact IH.
Qed.

(** X1. A run of the script calls the engine at most once, and only after an
    upload and a click: once when [sample_input.csv] can be read (which is
    all of the page's static part that is modelled), a file was uploaded and
    the button was clicked, and not at all otherwise. *)
Theorem engine_called_once_when_asked (ui : session) (d : disk) :
  engine_calls (script ui d)
  = if path_exists "sample_input.csv" d
       && match uploaded ui with Some _ => run_clicked ui | None => false end
    then 1%nat else 0%nat.
Proof.
  unfold engine_calls, App.script, path_exists.
  destruct (d !! "sample_input.csv") as [sample|]; [|reflexivity].
  destruct (uploaded ui) as [[name buffer]|]; [|reflexivity].
  destruct (run_clicked ui); [|reflexivity].
  destruct (run_calculation_trace read_csv atom_counter path_suffix mkstemp_name
              (st_radio ["volume"; "area"] (radio_choice ui)) name buffer d)
    as (r & rest & _ & _ & Htrace & Hrest).
  cbn. rewrite Htrace. cbn. rewrite (no_engine_call_among_shown rest Hrest). reflexivity.
Qed.

(** The disk at the call, written out. *)
Lemma reserve_disk (name : string) (buffer : list byte) (d : disk) :
  mkstemp_exclusive mkstemp_name ->
  exists r, reserve name buffer d = Some r
    /\ d !! in_path r = None /\ d !! out_path r = None
    /\ in_path r <> out_path r
    /\ at_invocation r = <[in_path r := buffer]> d.
Proof.
  intros Hfresh. unfold App.reserve, mkstemp, os_remove.
  rewrite lookup_insert_eq.
  set (inp := mkstemp_name (path_suffix name) d).
  set (d2 := <[inp := buffer]> (<[inp := []]> d)).
  set (out := mkstemp_name ".csv" d2).
  assert (Hinp : d !! inp = None) by apply Hfresh.
  assert (Hout2 : d2 !! out = None) by apply Hfresh.
  assert (Hne : inp <> out).
  { intros Heq. rewrite <- Heq in Hout2. unfold d2 in Hout2.
    rewrite lookup_insert_eq in Hout2. discriminate. }
  assert (Hd2 : d2 = <[inp := buffer]> d) by apply insert_insert_eq.
  eexists. split; [reflexivity|]. cbn.
  split; [exact Hinp|]. split.
  - rewrite Hd2, lookup_insert_ne in Hout2 by exact Hne. exact Hout2.
  - split; [exact Hne|].
    rewrite delete_insert_eq, delete_id by exact Hout2. exact Hd2.
Qed.

(** X2. With a [mkstemp] that never returns the name of an existing file, the
    two temporary paths are new and distinct, and the disk the engine is
    handed is the disk of before with the uploaded bytes under [in_path] and
    nothing under [out_path]: no file that was there is changed. *)
Theorem upload_reaches_engine (name : string) (buffer : list byte) (d : disk) :
  mkstemp_exclusive mkstemp_name ->
  exists r, reserve name buffer d = Some r
    /\ in_path r <> out_path r
    /\ d !! in_path r = None /\ d !! out_path r = None
    /\ at_invocation r !! in_path r = Some buffer
    /\ at_invocation r !! out_path r = None
    /\ forall path, path <> in_path r -> at_invocation r !! path = d !! path.
Proof.
  intros Hfresh.
  destruct (reserve_disk name buffer d Hfresh) as (r & Hr & Hinp & Hout & Hne & Hd).
  exists r. rewrite Hd. repeat split; auto.
  - apply lookup_insert_eq.
  - rewrite lookup_insert_ne by exact Hne. exact Hout.
  - intros path Hp. apply lookup_insert_ne. congruence.
Qed.


(** X5. A run of the calculation never shows results next to an error or a
    traceback. When it completes it has shown results and neither of the
    others; when it stops it has shown no results and exactly one of an error
    message and a traceback; when an exception escapes it has shown none of
    the three. *)
Theorem results_and_errors_exclusive (mode name : string) (buffer : list byte) (d : disk) :
  let result := run_calculation mode name buffer d in
  match ending_of result with
  | Completed =>
      shows_results result = true /\ reports_failure result = false
      /\ shows_exception result = false
  | Stopped =>
      shows_results result = false
      /\ xorb (reports_failure result) (shows_exception result) = true
  | Uncaught _ =>
      shows_results result = false /\ reports_failure result = false
      /\ shows_exception result = false
  end.
Proof.
  unfold App.run_calculation.
  destruct (reserve_succeeds path_suffix mkstemp_name name buffer d) as (r & -> & _).
  unfold App.invoke_and_display.
  destruct (atom_counter _ _ _ _) as [[| e | e] d5]; cbn; auto.
  destruct (negb _ || _); cbn; auto.
  destruct (read_csv _); cbn; auto.
Qed.

(** X3. Unless an exception escapes, the temporary input file is gone after
    the run; and whenever results were shown or a failure was reported with
    [st.error], the output file is gone too. *)
Theorem temporary_files_removed (mode name : string) (buffer : list byte) (d : disk) :
  exists r, reserve name buffer d = Some r /\
    let result := run_calculation mode name buffer d in
    match ending_of result with
    | Uncaught _ => True
    | Completed | Stopped => disk_after result !! in_path r = None
    end
    /\ (shows_results result = true \/ reports_failure result = true ->
        disk_after result !! out_path r = None).
Proof.
  destruct (reserve_succeeds path_suffix mkstemp_name name buffer d) as (r & Hr & _).
  exists r. split; [exact Hr|].
  unfold App.run_calculation. rewrite Hr.
  unfold App.invoke_and_display, unlink_missing_ok.
  assert (Hin : forall m : disk, delete (out_path r) (delete (in_path r) m) !! in_path r = None).
  { intros m. destruct (decide (out_path r = in_path r)) as [->|Hne].
    - apply lookup_delete_eq.
    - rewrite lookup_delete_ne by exact Hne. apply lookup_delete_eq. }
  destruct (atom_counter _ _ _ _) as [[| e | e] d5]; cbn.
  - destruct (negb _ || _); cbn.
    + split; [apply Hin|]. intros _. apply lookup_delete_eq.
    + destruct (read_csv _); cbn.
      * split; [apply Hin|]. intros _. apply lookup_delete_eq.
      * split; [apply Hin|]. intros _. apply lookup_delete_eq.
      * split; [exact I|]. intros [|]; discriminate.
  - split; [apply lookup_delete_eq|]. intros [|]; discriminate.
  - split; [exact I|]. intros [|]; discriminate.
Qed.

(** X6. Apart from its two temporary files the front end changes nothing
    after the call: every other path holds after the run what the disk the
    engine left holds there. *)
Theorem other_files_untouched (mode name : string) (buffer : list byte) (d : disk) :
  exists r, reserve name buffer d = Some r /\
    forall path, path <> in_path r -> path <> out_path r ->
      disk_after (run_calculation mode name buffer d) !! path
      = (atom_counter (in_path r) (out_path r) mode (at_invocation r)).2 !! path.
Proof.
  destruct (reserve_succeeds path_suffix mkstemp_name name buffer d) as (r & Hr & _).
  exists r. split; [exact Hr|]. intros path Hin Hout.
  unfold App.run_calculation. rewrite Hr.
  unfold App.invoke_and_display, unlink_missing_ok.
  destruct (atom_counter _ _ _ _) as [[| e | e] d5]; cbn.
  - destruct (negb _ || _); cbn.
    + rewrite !lookup_delete_ne by congruence. reflexivity.
    + destruct (read_csv _); cbn; rewrite ?lookup_delete_ne by congruence; reflexivity.
  - rewrite lookup_delete_ne by congruence. reflexivity.
  - reflexivity.
Qed.

(** X4. When the engine raises an exception the handler of line 136 shows it,
    removes the input file and stops, but leaves under [out_path] whatever the
    engine left there; and when an exception escapes the script (from the
    engine or from [read_csv]) nothing is removed at all. *)
Theorem output_left_when_engine_raises (mode name : string) (buffer : list byte) (d : disk) :
  mkstemp_exclusive mkstemp_name ->
  exists r, reserve name buffer d = Some r /\
    let after := atom_counter (in_path r) (out_path r) mode (at_invocation r) in
    let result := run_calculation mode name buffer d in
    (forall e, after.1 = RaisedException e ->
       shows_exception result = true /\ ending_of result = Stopped
       /\ disk_after result !! in_path r = None
       /\ disk_after result !! out_path r = after.2 !! out_path r)
    /\ (forall e, ending_of result = Uncaught e -> disk_after result = after.2).
Proof.
  intros Hfresh.
  destruct (reserve_disk name buffer d Hfresh)
    as (r & Hr & _ & _ & Hne & _).
  exists r. split; [exact Hr|].
  unfold App.run_calculation. rewrite Hr.
  unfold App.invoke_and_display, unlink_missing_ok.
  destruct (atom_counter _ _ _ _) as [[| e | e] d5]; cbn; split.
  - intros e; discriminate.
  - intros e. destruct (negb _ || _); cbn; [discriminate|].
    destruct (read_csv _); cbn; intros; congruence.
  - intros e' _. repeat split.
    + apply lookup_delete_eq.
    + apply lookup_delete_ne. exact Hne.
  - intros e'; discriminate.
  - intros e'; discriminate.
  - reflexivity.
Qed.

End Script.

(** With the sample [mkstemp], the upload is on the disk the engine is handed. *)
Lemma upload_reaches_engine_sample :
  exists r, reserve suffix_of_name mkstemp_longer "input.csv" sample_table sample_disk = Some r
    /\ at_invocation r !! in_path r = Some sample_table
    /\ at_invocation r !! "sample_input.csv" = sample_disk !! "sample_input.csv".
Proof.
  destruct (upload_reaches_engine suffix_of_name mkstemp_longer "input.csv" sample_table
              sample_disk mkstemp_longer_exclusive)
    as (r & Hr & _ & Hold & _ & Hin & _ & Hrest).
  exists r. split; [exact Hr|]. split; [exact Hin|].
  apply Hrest. intros Heq. rewrite <- Heq in Hold. discriminate Hold.
Defined.

(** An engine that raises after writing its table leaves the table behind. *)
Lemma output_left_when_engine_raises_sample :
  exists r, reserve suffix_of_name mkstemp_longer "input.csv" [] sample_disk = Some r
    /\ disk_after (run_calculation read_csv_sample (engine_failing_after sample_table)
                     suffix_of_name mkstemp_longer "area" "input.csv" [] sample_disk)
       !! out_path r = Some sample_table.
Proof.
  destruct (output_left_when_engine_raises read_csv_sample
              (engine_failing_after sample_table) suffix_of_name mkstemp_longer
              "area" "input.csv" [] sample_disk mkstemp_longer_exclusive)
    as (r & Hr & Hraise & _).
  exists r. split; [exact Hr|].
  destruct (Hraise "ValueError" eq_refl) as (_ & _ & _ & ->).
  cbn. apply lookup_insert_eq.
Defined.

End AppExtras.

(** ** More about the comparison utility *)

Module ParityExtras.
Import Parity ParityProps.

(** *** The values of the heatmap *)

(** X7. Whatever the two columns hold and however long they are, every value
    of the heatmap is NaN or a finite number that is not negative: never an
    infinity, never a negative number, never a negative zero. *)
Theorem heatmap_values_are_percentages (x y : series) :
  Forall (fun d => is_percentage d = true) (percent_diff x y).
Proof.
  unfold percent_diff, mask_nonfinite, np_abs.
  apply Forall_fmap, Forall_fmap, Forall_true.
  intros q. destruct q as [s|s| |s m e]; reflexivity.
Qed.

Lemma aligned_length_max (op : float64 -> float64 -> float64) (xs ys : list float64) :
  length (aligned op xs ys) = Nat.max (length xs) (length ys).
Proof.
  revert ys. induction xs as [|x xs IH]; intros [|y ys]; cbn;
    rewrite ?length_map; try reflexivity.
  f_equal. apply IH.
Qed.

Lemma aligned_lookup_both (op : float64 -> float64 -> float64) (xs ys : list float64)
    (i : nat) (x y : float64) :
  xs !! i = Some x -> ys !! i = Some y -> aligned op xs ys !! i = Some (op x y).
Proof.
  revert ys i. induction xs as [|x' xs IH]; intros [|y' ys] [|i]; cbn;
    try discriminate.
  - intros [= ->] [= ->]. reflexivity.
  - apply IH.
Qed.

Lemma all_nan_lookup {A : Type} (l : list A) (i : nat) :
  (i < length l)%nat -> map (fun _ => f_nan) l !! i = Some f_nan.
Proof.
  revert i. induction l as [|a l IH]; intros [|i]; cbn; try lia; [reflexivity|].
  intros Hi. apply IH. lia.
Qed.

Lemma aligned_lookup_short (op : float64 -> float64 -> float64) (xs ys : list float64)
    (i : nat) :
  (Nat.min (length xs) (length ys) <= i < Nat.max (length xs) (length ys))%nat ->
  aligned op xs ys !! i = Some f_nan.
Proof.
  revert ys i. induction xs as [|x xs IH]; intros [|y ys] i Hi.
  - cbn in Hi. lia.
  - apply (all_nan_lookup (y :: ys)). cbn in *. lia.
  - apply (all_nan_lookup (x :: xs)). cbn in *. lia.
  - destruct i as [|i]; [cbn in Hi; lia|]. cbn. apply IH. cbn in Hi. lia.
Qed.

Lemma series_sub_len_max (x y : series) :
  series_len (series_sub x y) = Nat.max (series_len x) (series_len y).
Proof.
  destruct x as [a|a], y as [b|b]; cbn;
    rewrite ?aligned_length_max, ?length_map; try reflexivity.
  destruct (Nat.eqb_spec (length a) (length b)) as [Heq|Hne]; cbn.
  - rewrite length_zip_with. lia.
  - rewrite aligned_length_max, !length_map. reflexivity.
Qed.

Lemma f_mul_nan (c : float64) : f_mul c f_nan = f_nan.
Proof. destruct c; reflexivity. Qed.

Lemma f_div_nan_l (d : float64) : f_div f_nan d = f_nan.
Proof. destruct d; reflexivity. Qed.

(** The numerator [100 * (x - y)] at a row the first table lacks. *)
Lemma numerator_beyond_first (x y : series) (i : nat) :
  (series_len x <= i < series_len y)%nat ->
  floats_of (int_times 100 (series_sub x y)) !! i = Some f_nan.
Proof.
  intros Hi.
  assert (Hsub : exists v, series_sub x y = SFloat v /\ v !! i = Some f_nan).
  { destruct x as [a|a], y as [b|b]; cbn in *.
    - destruct (Nat.eqb_spec (length a) (length b)) as [Heq|Hne]; [lia|].
      eexists; split; [reflexivity|].
      apply aligned_lookup_short. rewrite !length_map. lia.
    - eexists; split; [reflexivity|].
      apply aligned_lookup_short. rewrite !length_map. lia.
    - eexists; split; [reflexivity|].
      apply aligned_lookup_short. rewrite ?length_map. lia.
    - eexists; split; [reflexivity|].
      apply aligned_lookup_short. lia. }
  destruct Hsub as (v & -> & Hv). cbn.
  rewrite list_lookup_fmap, Hv. cbn. rewrite f_mul_nan. reflexivity.
Qed.

(** X8. The heatmap has as many values as the longer of the two columns, and
    at every row that the shorter column lacks its value is NaN. *)
Theorem rows_beyond_shorter_table_are_nan (x y : series) :
  length (percent_diff x y) = Nat.max (series_len x) (series_len y)
  /\ forall i,
      (Nat.min (series_len x) (series_len y) <= i
       < Nat.max (series_len x) (series_len y))%nat ->
      percent_diff x y !! i = Some f_nan.
Proof.
  assert (Hnum : length (floats_of (int_times 100 (series_sub x y)))
                 = Nat.max (series_len x) (series_len y)).
  { rewrite floats_of_length, int_times_len. apply series_sub_len_max. }
  split.
  - unfold percent_diff, mask_nonfinite, np_abs, series_truediv.
    rewrite !length_map, aligned_length_max, Hnum, floats_of_length. lia.
  - intros i Hi. unfold percent_diff, mask_nonfinite, np_abs, series_truediv.
    rewrite !list_lookup_fmap.
    destruct (Nat.lt_ge_cases i (series_len y)) as [Hy|Hy].
    + assert (Hx : (series_len x <= i)%nat) by lia.
      destruct (lookup_lt_is_Some_2 (floats_of y) i) as [v Hv];
        [rewrite floats_of_length; exact Hy|].
      rewrite (aligned_lookup_both _ _ _ i f_nan v
                 (numerator_beyond_first x y i (conj Hx Hy)) Hv).
      rewrite f_div_nan_l. reflexivity.
    + rewrite aligned_lookup_short; [reflexivity|].
      rewrite Hnum, floats_of_length. lia.
Qed.


Lemma percent_of_zero_divisor (n z : float64) :
  is_zero z = true -> nan_unless_finite (f_abs (f_div n z)) = f_nan.
Proof.
  destruct z as [sz|sz| |sz mz ez]; try discriminate. intros _.
  destruct n as [sn|sn| |sn mn en]; reflexivity.
Qed.

(** X9. At a row where the second table holds zero (0, 0.0 or -0.0) the
    heatmap holds NaN, whatever the first table holds there. *)
Theorem zero_divisor_gives_nan (x y : series) (i : nat) (a b : scalar) :
  series_len x = series_len y ->
  cell x i = Some a -> cell y i = Some b ->
  is_zero (float_of b) = true ->
  percent_diff x y !! i = Some f_nan.
Proof.
  intros Hlen Ha Hb Hzero.
  rewrite (percent_diff_row x y i a b Hlen Ha Hb).
  unfold percent_cell, quotient, scalar_truediv.
  rewrite percent_of_zero_divisor by exact Hzero. reflexivity.
Qed.

Lemma zero_divisor_gives_nan_sample :
  percent_diff (SInt [30; 60]%Z) (SInt [32; 0]%Z) !! 1%nat = Some f_nan.
Proof.
  apply (zero_divisor_gives_nan (SInt [30; 60]%Z) (SInt [32; 0]%Z) 1
           (VInt 60) (VInt 0)); reflexivity.
Defined.

Lemma percent_of_zero_numerator (d : float64) :
  let v := nan_unless_finite (f_abs (f_div (S754_zero false) d)) in
  v = S754_zero false \/ v = f_nan.
Proof. destruct d as [s|s| |s m e]; cbn; auto. Qed.

Lemma f_sub_diag (f : float64) : f_sub f f = S754_zero false \/ f_sub f f = f_nan.
Proof.
  destruct f as [[|]|[|]| |s m e]; cbn; auto.
  left. unfold f_sub. cbn [SFsub]. rewrite Z.sub_diag. reflexivity.
Qed.

Lemma percent_cell_diag (a : scalar) :
  percent_cell a a = S754_zero false \/ percent_cell a a = f_nan.
Proof.
  unfold percent_cell, quotient, scalar_truediv.
  destruct a as [p|f]; cbn [scalar_sub scalar_times float_of].
  - rewrite Z.sub_diag. change (wrap64 (100 * wrap64 0)) with 0%Z.
    apply percent_of_zero_numerator.
  - destruct (f_sub_diag f) as [-> | ->].
    + change (f_mul (of_int 100) (S754_zero false)) with (S754_zero false).
      apply percent_of_zero_numerator.
    + rewrite f_mul_nan, f_div_nan_l. right. reflexivity.
Qed.

Lemma cell_is_Some (x : series) (i : nat) :
  (i < series_len x)%nat -> is_Some (cell x i).
Proof.
  destruct x as [v|v]; cbn; intros Hi;
    destruct (lookup_lt_is_Some_2 v i Hi) as [c ->]; eexists; reflexivity.
Qed.

(** X10. A column compared with itself shows no difference: every value of
    the heatmap is 0.0 or NaN. *)
Theorem no_difference_with_itself (x : series) :
  length (percent_diff x x) = series_len x
  /\ Forall (fun d => d = S754_zero false \/ d = f_nan) (percent_diff x x).
Proof.
  split; [apply percent_diff_length; reflexivity|].
  apply Forall_lookup. intros i d Hd.
  assert (Hi : (i < series_len x)%nat).
  { rewrite <- (percent_diff_length x x eq_refl). eapply lookup_lt_Some, Hd. }
  destruct (cell_is_Some x i Hi) as [a Ha].
  assert (Heq : Some d = Some (percent_cell a a))
    by exact (eq_trans (eq_sym Hd) (percent_diff_row x x i a a eq_refl Ha Ha)).
  injection Heq as ->. apply percent_cell_diag.
Qed.


(** *** Runs that end in an exception *)

Section Failures.

Variable args : arguments.
Variables df_a df_b df_c : frame.

Lemma process_column_no_dir (col : string) :
  output_dir args = None ->
  process_column args df_a df_b df_c col = ([], true).
Proof.
  intros Hdir. unfold process_column. rewrite Hdir.
  destruct (getitem df_a col), (getitem df_b col), (select df_c "Theta"),
    (select df_c "R (A)"); try reflexivity;
    (destruct (negb (_ =? _)%nat); [reflexivity|]);
    destruct (negb (_ && _)); reflexivity.
Qed.

Lemma process_column_no_key (col : string) :
  select df_c "Theta" = Missing \/ select df_c "R (A)" = Missing ->
  process_column args df_a df_b df_c col = ([], true).
Proof.
  intros Hkey. unfold process_column.
  destruct (getitem df_a col), (getitem df_b col); try reflexivity.
  destruct Hkey as [-> | ->]; [reflexivity|].
  destruct (select df_c "Theta"); reflexivity.
Qed.

End Failures.

(** With [Theta] twice in the input table the run saves the parity plot of
    the first shared column and ends in the exception of line 103. *)
Example duplicated_theta_run :
  let r := main arguments_sample atomistic_sample atomcounter_sample input_two_thetas in
  saved_paths (events r) = ["plots/parity_perimeter.png"] /\ ending_of r = Traceback.
Proof. vm_compute. auto. Qed.

(** Three rows against an input table of two: the three values of line 67
    lie between 0 and 1, [plt.scatter] takes them for one colour, and the run
    completes. *)
Example three_values_taken_for_one_colour :
  let r := main arguments_sample atomistic_three_rows atomcounter_three_rows input_sample in
  saved_paths (events r) = ["plots/parity_total.png"; "plots/heatmap_total.png"]
  /\ ending_of r = Completed.
Proof. vm_compute. auto. Qed.

(** X11. Without [--output_dir], which has no default, a run over tables that
    share a column saves nothing, shows nothing, prints nothing and ends in an
    exception (line 94 adds [None] and a string). *)
Theorem nothing_saved_without_output_dir (args : arguments) (df_a df_b df_c : frame) :
  output_dir args = None ->
  common_cols df_a df_b <> [] ->
  main args df_a df_b df_c = Run [] Traceback.
Proof.
  intros Hdir Hsome. unfold main.
  destruct (common_cols df_a df_b) as [|col cols]; [congruence|].
  cbn [plot_columns]. rewrite process_column_no_dir by exact Hdir. reflexivity.
Qed.

Lemma nothing_saved_without_output_dir_sample :
  main arguments_without_dir atomistic_sample atomcounter_sample input_sample
  = Run [] Traceback.
Proof.
  apply nothing_saved_without_output_dir; [reflexivity|].
  vm_compute. discriminate.
Defined.

Lemma select_missing (df : frame) (col : string) :
  col ∉ columns df -> select df col = Missing.
Proof.
  intros Hmissing. unfold select.
  destruct (filter _ df) as [|c rest] eqn:Hfilter; [reflexivity|].
  exfalso. apply Hmissing.
  assert (Hc : c ∈ filter (fun c : string * series => String.eqb c.1 col) df)
    by (rewrite Hfilter; left).
  apply list_elem_of_filter in Hc as [Heq Hc].
  apply Is_true_eq_true, String.eqb_eq in Heq. subst col.
  unfold columns. apply list_elem_of_fmap. exists c. auto.
Qed.

(** X12. When the input table has no column headed [Theta], or none headed
    [R (A)], a run over tables that share a column saves nothing and ends in
    an exception: the [KeyError] of line 70 or 71 comes before the first
    figure is drawn. *)
Theorem nothing_saved_without_angle_or_radius (args : arguments) (df_a df_b df_c : frame) :
  "Theta" ∉ map strip (columns df_c) \/ "R (A)" ∉ map strip (columns df_c) ->
  common_cols df_a df_b <> [] ->
  main args df_a df_b df_c = Run [] Traceback.
Proof.
  intros Hkey Hsome. unfold main.
  destruct (common_cols df_a df_b) as [|col cols]; [congruence|].
  cbn [plot_columns]. rewrite process_column_no_key; [reflexivity|].
  rewrite <- columns_strip in Hkey.
  destruct Hkey as [Hkey | Hkey]; [left|right]; apply select_missing, Hkey.
Qed.

Lemma nothing_saved_without_angle_or_radius_sample :
  main arguments_sample atomistic_sample atomcounter_sample input_without_theta
  = Run [] Traceback.
Proof.
  apply nothing_saved_without_angle_or_radius.
  - left. cbn. intros Hin.
    repeat (apply elem_of_cons in Hin as [Heq | Hin]; [discriminate Heq|]).
    inversion Hin.
  - vm_compute. discriminate.
Defined.

(** X13. The run does the shared columns in order up to the first that
    raises: its events are the two figures of each column done, followed, for
    the column that raised, by nothing or by its parity plot alone. It ends in
    a traceback exactly when some column is left. *)
Theorem earlier_columns_stay_saved (args : arguments) (df_a df_b df_c : frame) :
  exists done rest partial,
    common_cols df_a df_b = (done ++ rest)%list
    /\ events (main args df_a df_b df_c)
       = (flat_map (column_events args (strip_columns df_a) (strip_columns df_b)
                      (strip_columns df_c)) done ++ partial)%list
    /\ (ending_of (main args df_a df_b df_c) = Traceback <-> rest <> [])
    /\ match rest with
       | [] => partial = []
       | col :: _ =>
           partial = []
           \/ exists x y out_dir,
                getitem (strip_columns df_a) col = Some x
                /\ getitem (strip_columns df_b) col = Some y
                /\ output_dir args = Some out_dir
                /\ partial = saved (show args) (parity_path out_dir col)
                               (ParityPlot (parity_of col x y))
       end.
Proof.
  unfold main.
  destruct (common_cols df_a df_b) as [|c cols] eqn:Hcols.
  - exists [], [], []. cbn. repeat split; try discriminate. congruence.
  - destruct (plot_columns_prefix args (strip_columns df_a) (strip_columns df_b)
                (strip_columns df_c) (c :: cols))
      as (done & rest & partial & Hsplit & Hevs & Hrest).
    destruct (plot_columns _ _ _ _ (c :: cols)) as [evs raised].
    cbn [fst snd] in Hevs, Hrest. cbn [events ending_of].
    exists done, rest, partial. split; [exact Hsplit|]. split; [exact Hevs|].
    destruct rest as [|col rest].
    + destruct Hrest as [-> ->]. repeat split; try discriminate. congruence.
    + destruct Hrest as [Hcol ->]. split; [split; [discriminate|reflexivity]|].
      exact (process_column_raised _ _ _ _ col partial Hcol).
Qed.


(** *** Saving, showing and announcing *)

Lemma column_events_blocks (args : arguments) (df_a df_b df_c : frame) (col : string) :
  exists blocks : list (string * figure),
    column_events args df_a df_b df_c col
    = flat_map (fun b => saved (show args) b.1 b.2) blocks.
Proof.
  unfold column_events.
  destruct (getitem df_a col) as [x|]; [|exists []; reflexivity].
  destruct (getitem df_b col) as [y|]; [|exists []; reflexivity].
  destruct (getitem df_c "Theta") as [theta|]; [|exists []; reflexivity].
  destruct (getitem df_c "R (A)") as [curv_radii|]; [|exists []; reflexivity].
  destruct (output_dir args) as [out_dir|]; [|exists []; reflexivity].
  eexists [(_, _); (_, _)]. cbn [flat_map fst snd]. rewrite app_nil_r. reflexivity.
Qed.

Lemma flat_map_blocks (args : arguments) (df_a df_b df_c : frame) (cols : list string) :
  exists blocks : list (string * figure),
    flat_map (column_events args df_a df_b df_c) cols
    = flat_map (fun b => saved (show args) b.1 b.2) blocks.
Proof.
  induction cols as [|col cols [blocks IH]]; [exists []; reflexivity|].
  destruct (column_events_blocks args df_a df_b df_c col) as [first Hfirst].
  exists (first ++ blocks)%list. cbn [flat_map].
  rewrite Hfirst, IH, flat_map_app. reflexivity.
Qed.

Lemma saved_not_shown (path : string) (fig : figure) :
  Forall (fun ev => is_show ev = false) (saved false path fig).
Proof. repeat constructor. Qed.

Lemma plot_columns_blocks (args : arguments) (df_a df_b df_c : frame) (cols : list string) :
  exists blocks : list (string * figure),
    (plot_columns args df_a df_b df_c cols).1
    = flat_map (fun b => saved (show args) b.1 b.2) blocks.
Proof.
  destruct (plot_columns_prefix args df_a df_b df_c cols)
    as (done & rest & partial & _ & Hevs & Hrest).
  destruct (flat_map_blocks args df_a df_b df_c done) as [blocks Hblocks].
  assert (Hlast : exists last : list (string * figure),
            partial = flat_map (fun b => saved (show args) b.1 b.2) last).
  { destruct rest as [|col rest]; [exists []; apply Hrest|].
    destruct Hrest as [Hcol _].
    destruct (process_column_raised _ _ _ _ col partial Hcol)
      as [-> | (x & y & out_dir & _ & _ & _ & ->)]; [exists []; reflexivity|].
    eexists [(_, _)]. cbn [flat_map fst snd]. rewrite app_nil_r. reflexivity. }
  destruct Hlast as [last Hlast].
  exists (blocks ++ last)%list.
  rewrite Hevs, Hblocks, Hlast, flat_map_app. reflexivity.
Qed.

(** X14. In every run, complete or not, each figure saved is followed by the
    line ["Saved <path>"] naming its path, with the same figure shown in
    between exactly when [--show] was given; nothing else is ever saved,
    shown or printed, and without [--show] nothing is shown. *)
Theorem every_figure_saved_is_announced (args : arguments) (df_a df_b df_c : frame) :
  exists blocks : list (string * figure),
    events (main args df_a df_b df_c)
    = flat_map (fun b => [SaveFig b.1 b.2]
                         ++ (if show args then [ShowFig b.2] else [])
                         ++ [Print ("Saved " +:+ b.1)])%list blocks
    /\ saved_paths (events (main args df_a df_b df_c)) = blocks.*1
    /\ (show args = false ->
        Forall (fun ev => is_show ev = false) (events (main args df_a df_b df_c))).
Proof.
  assert (Hblocks : exists blocks : list (string * figure),
            events (main args df_a df_b df_c)
            = flat_map (fun b => saved (show args) b.1 b.2) blocks).
  { unfold main. destruct (common_cols df_a df_b) as [|c cols];
      [exists []; reflexivity|].
    destruct (plot_columns_blocks args (strip_columns df_a) (strip_columns df_b)
                (strip_columns df_c) (c :: cols)) as [blocks Hblocks].
    destruct (plot_columns _ _ _ _ (c :: cols)) as [evs raised].
    exists blocks. exact Hblocks. }
  destruct Hblocks as [blocks Hall]. exists blocks.
  split; [exact Hall|]. rewrite Hall. clear Hall. split.
  - induction blocks as [|[path fig] l IH]; [reflexivity|].
    cbn [flat_map fst snd fmap list_fmap]. unfold saved_paths in *.
    rewrite flat_map_app, IH. unfold saved.
    destruct (show args); reflexivity.
  - intros Hshow. rewrite Hshow.
    induction blocks as [|[path fig] l IH]; [constructor|].
    cbn [flat_map fst snd]. apply Forall_app. split; [apply saved_not_shown|exact IH].
Qed.


(** *** Headers *)

Lemma prefix_free (codes : list (list ascii)) (p q : list ascii) :
  no_code_starts_another codes = true ->
  p ∈ codes -> q ∈ codes -> p `prefix_of` q -> p = q.
Proof.
  unfold no_code_starts_another. rewrite forallb_forall.
  intros Hfree Hp Hq [k Hk].
  specialize (Hfree p (proj1 (list_elem_of_In _ _) Hp)).
  rewrite forallb_forall in Hfree.
  specialize (Hfree q (proj1 (list_elem_of_In _ _) Hq)).
  rewrite (proj2 (after_prefix_Some p q k) Hk) in Hfree.
  destruct k; [rewrite app_nil_r in Hk; auto|discriminate].
Qed.

Lemma app_eq_prefix {A : Type} (p q t rest : list A) :
  (p ++ t = q ++ rest)%list -> p `prefix_of` q \/ q `prefix_of` p.
Proof.
  revert q. induction p as [|a p IH]; intros q Heq.
  - left. exists q. reflexivity.
  - destruct q as [|b q]; [right; eexists; reflexivity|].
    injection Heq as -> Heq. destruct (IH q Heq) as [[k ->] | [k ->]].
    + left. exists k. reflexivity.
    + right. exists k. reflexivity.
Qed.

(** A whitespace character at the start is taken off as itself. *)
Lemma drop_code_code (codes : list (list ascii)) (p t : list ascii) :
  no_code_starts_another codes = true -> p ∈ codes ->
  drop_code codes (p ++ t) = Some t.
Proof.
  intros Hfree Hp. destruct (drop_code codes (p ++ t)) as [rest|] eqn:Hdrop.
  - apply drop_code_Some in Hdrop as (q & Hq & Heq).
    assert (p = q) as <-.
    { destruct (app_eq_prefix p q t rest Heq) as [Hpq | Hqp].
      - apply (prefix_free codes); assumption.
      - symmetry. apply (prefix_free codes); assumption. }
    apply app_inv_head in Heq. congruence.
  - exfalso. apply (proj1 (drop_code_None _ _) Hdrop p Hp). exists t. reflexivity.
Qed.

Lemma lstrip_with_whitespace (codes : list (list ascii)) (ws : list (list ascii))
    (t : list ascii) (fuel : nat) :
  no_code_starts_another codes = true -> Forall (fun p => p <> []) codes ->
  Forall (fun w => w ∈ codes) ws ->
  (length (concat ws ++ t) <= fuel)%nat ->
  lstrip_with codes fuel (concat ws ++ t) = lstrip_with codes fuel t.
Proof.
  intros Hfree Hcodes Hws. revert fuel.
  induction Hws as [|w ws Hw Hws IH]; intros fuel Hlen; [reflexivity|].
  cbn [concat] in *. rewrite <- app_assoc in *.
  assert (Hnonempty : w <> []) by (rewrite Forall_forall in Hcodes; apply Hcodes, Hw).
  rewrite !length_app in Hlen.
  destruct fuel as [|fuel]; [destruct w; [congruence|cbn in Hlen; lia]|].
  cbn [lstrip_with]. rewrite (drop_code_code codes w _ Hfree Hw).
  assert (Hw_len : (1 <= length w)%nat) by (destruct w; [congruence|cbn; lia]).
  rewrite IH by (rewrite length_app; lia).
  change (lstrip_with codes fuel t = lstrip_with codes (S fuel) t).
  apply lstrip_with_fuel; [exact Hcodes|lia|lia].
Qed.

Lemma space_codes_free : no_code_starts_another space_codes = true.
Proof. vm_compute. reflexivity. Qed.

Lemma rev_codes_free : no_code_starts_another (map (@rev ascii) space_codes) = true.
Proof. vm_compute. reflexivity. Qed.

Lemma lstrip_whitespace (ws : list (list ascii)) (t : list ascii) :
  Forall (fun w => w ∈ space_codes) ws -> lstrip (concat ws ++ t) = lstrip t.
Proof.
  intros Hws. unfold lstrip.
  rewrite (lstrip_with_whitespace space_codes ws t _ space_codes_free space_codes_nonempty Hws)
    by lia.
  apply lstrip_with_fuel; [apply space_codes_nonempty|rewrite length_app; lia|lia].
Qed.

Lemma rstrip_whitespace (ws : list (list ascii)) (t : list ascii) :
  Forall (fun w => w ∈ space_codes) ws -> rstrip (t ++ concat ws) = rstrip t.
Proof.
  intros Hws. unfold rstrip. f_equal.
  rewrite rev_app_distr, rev_concat.
  assert (Hrev : Forall (fun w => w ∈ map (@rev ascii) space_codes)
                   (rev (map (@rev ascii) ws))).
  { apply Forall_rev, Forall_fmap. eapply Forall_impl; [exact Hws|].
    intros w Hw. change (rev w ∈ map (@rev ascii) space_codes).
    apply list_elem_of_fmap. exists w. auto. }
  rewrite (lstrip_with_whitespace _ _ (rev t) _ rev_codes_free
             (rev_codes_nonempty _ space_codes_nonempty) Hrev).
  - apply lstrip_with_fuel; [apply rev_codes_nonempty, space_codes_nonempty| |];
      rewrite ?length_app, length_rev; lia.
  - rewrite <- rev_concat, <- rev_app_distr, length_rev. lia.
Qed.

Lemma space_codes_shape :
  Forall (fun p => starts_a_character p
                   /\ Forall (fun b => is_continuation b = true) (tail p)) space_codes.
Proof.
  assert (Hshape : forallb (fun p => match p with
                                     | [] => true
                                     | c :: q => negb (is_continuation c)
                                                 && forallb is_continuation q
                                     end) space_codes = true) by (vm_compute; reflexivity).
  rewrite forallb_forall in Hshape.
  apply Forall_forall. intros p Hp.
  specialize (Hshape p (proj1 (list_elem_of_In _ _) Hp)).
  destruct p as [|c q]; [split; constructor|].
  apply andb_true_iff in Hshape as [Hc Hq]. split.
  - apply negb_true_iff, Hc.
  - apply Forall_forall. intros b Hb. rewrite forallb_forall in Hq.
    apply Hq, list_elem_of_In, Hb.
Qed.

Lemma whitespace_starts_a_character (ws : list (list ascii)) :
  Forall (fun w => w ∈ space_codes) ws -> starts_a_character (concat ws).
Proof.
  intros Hws. destruct Hws as [|w ws Hw Hws]; [exact I|].
  pose proof space_codes_shape as Hshape. rewrite Forall_forall in Hshape.
  destruct (Hshape w Hw) as [Hstart _].
  pose proof space_codes_nonempty as Hnonempty. rewrite Forall_forall in Hnonempty.
  specialize (Hnonempty w Hw). destruct w as [|c w]; [congruence|exact Hstart].
Qed.

Lemma after_prefix_app_tail (q s r : list ascii) :
  Forall (fun b => is_continuation b = true) q -> starts_a_character r ->
  after_prefix q (s ++ r) = (fun rest => (rest ++ r)%list) <$> after_prefix q s.
Proof.
  intros Hq Hr. revert s. induction Hq as [|b q Hb Hq IH]; intros s; [reflexivity|].
  destruct s as [|c s]; cbn [app after_prefix].
  - destruct r as [|c r]; [reflexivity|]. cbn in Hr.
    destruct (Ascii.eqb_spec b c) as [->|_]; [congruence|reflexivity].
  - destruct (Ascii.eqb b c); [apply IH|reflexivity].
Qed.

Lemma drop_code_app (codes : list (list ascii)) (c : ascii) (s r : list ascii) :
  Forall (fun p => starts_a_character p
                   /\ Forall (fun b => is_continuation b = true) (tail p)) codes ->
  starts_a_character r ->
  drop_code codes ((c :: s) ++ r)
  = (fun rest => (rest ++ r)%list) <$> drop_code codes (c :: s).
Proof.
  intros Hcodes Hr. induction Hcodes as [|p codes [_ Hp] Hcodes IH]; [reflexivity|].
  cbn [drop_code].
  assert (Hone : after_prefix p ((c :: s) ++ r)
                 = (fun rest => (rest ++ r)%list) <$> after_prefix p (c :: s)).
  { destruct p as [|a q]; [reflexivity|]. cbn [app after_prefix].
    destruct (Ascii.eqb a c); [|reflexivity].
    apply after_prefix_app_tail; assumption. }
  rewrite Hone. destruct (after_prefix p (c :: s)); [reflexivity|exact IH].
Qed.

Lemma lstrip_all_whitespace (ws : list (list ascii)) :
  Forall (fun w => w ∈ space_codes) ws -> lstrip (concat ws) = [].
Proof.
  intros Hws. rewrite <- (app_nil_r (concat ws)). rewrite lstrip_whitespace by exact Hws.
  reflexivity.
Qed.

Lemma lstrip_with_app (n : nat) (s : list ascii) (ws : list (list ascii)) :
  Forall (fun w => w ∈ space_codes) ws -> (length s <= n)%nat ->
  lstrip_with space_codes (n + length (concat ws)) (s ++ concat ws)
  = match lstrip_with space_codes n s with
    | [] => []
    | _ :: _ => (lstrip_with space_codes n s ++ concat ws)%list
    end.
Proof.
  intros Hws. set (r := concat ws).
  assert (Hr : lstrip r = []) by (apply lstrip_all_whitespace, Hws).
  assert (Hstart : starts_a_character r) by (apply whitespace_starts_a_character, Hws).
  revert s. induction n as [|n IH]; intros s Hlen.
  - destruct s; [|cbn in Hlen; lia]. cbn [app plus lstrip_with]. exact Hr.
  - destruct s as [|c s].
    + cbn [app].
      rewrite (lstrip_with_fuel space_codes (S n) 0 [] space_codes_nonempty)
        by (cbn; lia).
      cbn [lstrip_with].
      rewrite (lstrip_with_fuel space_codes _ (length r) r space_codes_nonempty) by lia.
      exact Hr.
    + cbn [plus lstrip_with].
      rewrite (drop_code_app space_codes c s r space_codes_shape Hstart).
      destruct (drop_code space_codes (c :: s)) as [rest|] eqn:Hrest;
        cbn [fmap option_fmap option_map].
      * pose proof (drop_code_shorter _ _ _ space_codes_nonempty Hrest) as Hshort.
        apply IH. cbn in Hlen, Hshort. lia.
      * reflexivity.
Qed.

Lemma lstrip_app (s : list ascii) (ws : list (list ascii)) :
  Forall (fun w => w ∈ space_codes) ws ->
  lstrip (s ++ concat ws)
  = match lstrip s with
    | [] => []
    | _ :: _ => (lstrip s ++ concat ws)%list
    end.
Proof.
  intros Hws. unfold lstrip. rewrite length_app. apply lstrip_with_app; [exact Hws|lia].
Qed.

(** Whitespace around a header does not survive [strip]. *)
Lemma strip_padded (before after s : string) :
  whitespace before -> whitespace after ->
  strip (before +:+ s +:+ after) = strip s.
Proof.
  unfold strip. intros (wl & Hwl & Hl) (wr & Hwr & Hr). f_equal.
  rewrite !list_ascii_append, Hl, Hr.
  set (cs := list_ascii_of_string s).
  rewrite lstrip_whitespace by exact Hwl. rewrite lstrip_app by exact Hwr.
  destruct (lstrip cs) as [|c t] eqn:Hcs; [reflexivity|].
  apply rstrip_whitespace, Hwr.
Qed.

(** Tabs, line feeds, spaces and the rest of ASCII whitespace are
    whitespace. *)
Lemma all_space_whitespace (s : string) : all_space s = true -> whitespace s.
Proof.
  unfold all_space, whitespace. generalize (list_ascii_of_string s). intros cs Hcs.
  exists (map (fun c => [c]) cs). split.
  - apply Forall_fmap, Forall_forall. intros c Hc. cbn.
    rewrite forallb_forall in Hcs. specialize (Hcs c (proj1 (list_elem_of_In _ _) Hc)).
    destruct c as [[] [] [] [] [] [] [] []]; vm_compute in Hcs; try discriminate Hcs;
      vm_compute; repeat constructor.
  - induction cs as [|c cs IH]; [reflexivity|]. cbn. f_equal. apply IH.
    cbn in Hcs. apply andb_true_iff in Hcs. tauto.
Qed.

Lemma strip_columns_padded (before after : string) (df : frame) :
  whitespace before -> whitespace after ->
  strip_columns (pad_headers before after df) = strip_columns df.
Proof.
  intros Hl Hr. unfold strip_columns, pad_headers. rewrite map_map.
  apply map_ext. intros [header column]. cbn [fst snd].
  rewrite strip_padded by assumption. reflexivity.
Qed.

(** X15. Whitespace put before and after every header of any of the three
    tables changes nothing in the run. *)
Theorem surrounding_whitespace_ignored
    (args : arguments) (df_a df_b df_c : frame) (before after : string) :
  whitespace before -> whitespace after ->
  main args (pad_headers before after df_a) df_b df_c = main args df_a df_b df_c
  /\ main args df_a (pad_headers before after df_b) df_c = main args df_a df_b df_c
  /\ main args df_a df_b (pad_headers before after df_c) = main args df_a df_b df_c.
Proof.
  intros Hl Hr. unfold main, common_cols.
  rewrite !strip_columns_padded by assumption. auto.
Qed.

Lemma surrounding_whitespace_ignored_sample :
  main arguments_sample (pad_headers "  " " " atomistic_sample) atomcounter_sample
       input_sample
  = main arguments_sample atomistic_sample atomcounter_sample input_sample.
Proof.
  apply (surrounding_whitespace_ignored arguments_sample atomistic_sample
           atomcounter_sample input_sample "  " " ");
    apply all_space_whitespace; reflexivity.
Defined.

(** *** The order of the columns *)

Lemma only_item_Permutation {A B : Type} (f : A -> B) (l l' : list A) :
  l ≡ₚ l' ->
  match l with [c] => Some (f c) | _ => None end
  = match l' with [c] => Some (f c) | _ => None end.
Proof.
  intros Hperm. destruct l as [|c1 [|c2 l]].
  - apply Permutation_nil_l in Hperm. rewrite <- Hperm. reflexivity.
  - apply Permutation_singleton_l in Hperm. rewrite <- Hperm. reflexivity.
  - apply Permutation_length in Hperm.
    destruct l' as [|c1' [|c2' l']]; try discriminate Hperm. reflexivity.
Qed.

Lemma getitem_Permutation (df df' : frame) (col : string) :
  df ≡ₚ df' -> getitem df col = getitem df' col.
Proof.
  intros Hperm. unfold getitem.
  apply (only_item_Permutation snd). apply filter_Permutation, Hperm.
Qed.

Lemma selection_Permutation {A : Type} (f : A -> series) (l l' : list A) :
  l ≡ₚ l' ->
  match l with [] => Missing | [c] => Column (f c) | _ => Table end
  = match l' with [] => Missing | [c] => Column (f c) | _ => Table end.
Proof.
  intros Hperm. destruct l as [|c1 [|c2 l]].
  - apply Permutation_nil_l in Hperm. rewrite <- Hperm. reflexivity.
  - apply Permutation_singleton_l in Hperm. rewrite <- Hperm. reflexivity.
  - apply Permutation_length in Hperm.
    destruct l' as [|c1' [|c2' l']]; try discriminate Hperm. reflexivity.
Qed.

Lemma select_Permutation (df df' : frame) (col : string) :
  df ≡ₚ df' -> select df col = select df' col.
Proof.
  intros Hperm. unfold select.
  apply (selection_Permutation snd). apply filter_Permutation, Hperm.
Qed.

Lemma mem_Permutation (s : string) (l l' : list string) :
  l ≡ₚ l' -> mem s l = mem s l'.
Proof.
  intros Hperm. apply eq_true_iff_eq. rewrite !mem_elem_of, Hperm. reflexivity.
Qed.

Lemma strip_columns_Permutation (df df' : frame) :
  df ≡ₚ df' -> strip_columns df ≡ₚ strip_columns df'.
Proof. intros Hperm. unfold strip_columns. apply Permutation_map, Hperm. Qed.

Lemma common_cols_Permutation (df_a df_b df_b' : frame) :
  df_b ≡ₚ df_b' -> common_cols df_a df_b = common_cols df_a df_b'.
Proof.
  intros Hperm. unfold common_cols, intersection. f_equal.
  apply list_filter_iff. intros s.
  rewrite (mem_Permutation s (columns (strip_columns df_b))
             (columns (strip_columns df_b'))); [reflexivity|].
  unfold columns. apply Permutation_map, strip_columns_Permutation, Hperm.
Qed.

Lemma process_column_Permutation (args : arguments) (df_a df_b df_b' df_c df_c' : frame)
    (col : string) :
  df_b ≡ₚ df_b' -> df_c ≡ₚ df_c' ->
  process_column args df_a df_b df_c col = process_column args df_a df_b' df_c' col.
Proof.
  intros Hb Hc. unfold process_column.
  rewrite (getitem_Permutation df_b df_b' col Hb).
  rewrite (select_Permutation df_c df_c' "Theta" Hc).
  rewrite (select_Permutation df_c df_c' "R (A)" Hc). reflexivity.
Qed.

Lemma unique_sublist (l : list string) : unique l `sublist_of` l.
Proof.
  induction l as [|s l IH]; cbn [unique]; [constructor|].
  apply sublist_skip. etransitivity; [apply sublist_filter|exact IH].
Qed.

(** X16. Reordering the columns of the second result table and of the input
    table changes nothing in the run; the shared columns are done in the order
    in which the first table has them. *)
Theorem only_first_table_orders_the_run
    (args : arguments) (df_a df_b df_b' df_c df_c' : frame) :
  df_b ≡ₚ df_b' -> df_c ≡ₚ df_c' ->
  main args df_a df_b df_c = main args df_a df_b' df_c'
  /\ common_cols df_a df_b `sublist_of` map strip (columns df_a).
Proof.
  intros Hb Hc. split.
  - unfold main. rewrite <- (common_cols_Permutation df_a df_b df_b' Hb).
    destruct (common_cols df_a df_b) as [|c cols]; [reflexivity|].
    assert (Hplot : forall l,
              plot_columns args (strip_columns df_a) (strip_columns df_b)
                (strip_columns df_c) l
              = plot_columns args (strip_columns df_a) (strip_columns df_b')
                  (strip_columns df_c') l).
    { induction l as [|col l IH]; [reflexivity|]. cbn [plot_columns].
      rewrite (process_column_Permutation args _ _ (strip_columns df_b') _
                 (strip_columns df_c') col)
        by (apply strip_columns_Permutation; assumption).
      rewrite IH. reflexivity. }
    rewrite Hplot. reflexivity.
  - unfold common_cols, intersection. rewrite <- columns_strip.
    etransitivity; [apply unique_sublist|apply sublist_filter].
Qed.

Lemma only_first_table_orders_the_run_sample :
  main arguments_sample atomistic_sample atomcounter_sample input_sample
  = main arguments_sample atomistic_sample (rev atomcounter_sample) (rev input_sample).
Proof.
  apply (only_first_table_orders_the_run arguments_sample atomistic_sample
           atomcounter_sample (rev atomcounter_sample)
           input_sample (rev input_sample)); apply Permutation_rev.
Defined.


(** *** The names of the saved files *)

Lemma append_cancel_l (prefix a b : string) : prefix +:+ a = prefix +:+ b -> a = b.
Proof.
  intros Heq. apply String.eqb_eq. rewrite <- (append_eqb prefix), Heq.
  apply String.eqb_refl.
Qed.

Lemma append_cancel_r (a b suffix : string) : a +:+ suffix = b +:+ suffix -> a = b.
Proof.
  intros Heq. apply (f_equal list_ascii_of_string) in Heq.
  rewrite !list_ascii_append in Heq. apply app_inv_tail in Heq.
  rewrite <- (string_of_list_ascii_of_string a), Heq.
  apply string_of_list_ascii_of_string.
Qed.

Lemma parity_path_eq (out_dir c c' : string) :
  parity_path out_dir c = parity_path out_dir c' <-> lower c = lower c'.
Proof.
  unfold parity_path. split; [|intros ->; reflexivity].
  intros Heq. apply append_cancel_l, append_cancel_l, append_cancel_r in Heq. exact Heq.
Qed.

Lemma heatmap_path_eq (out_dir c c' : string) :
  heatmap_path out_dir c = heatmap_path out_dir c' <-> lower c = lower c'.
Proof.
  unfold heatmap_path. split; [|intros ->; reflexivity].
  intros Heq. apply append_cancel_l, append_cancel_l, append_cancel_r in Heq. exact Heq.
Qed.

Lemma parity_path_not_heatmap_path (out_dir c c' : string) :
  parity_path out_dir c <> heatmap_path out_dir c'.
Proof.
  unfold parity_path, heatmap_path. intros Heq.
  apply append_cancel_l in Heq. cbv [String.append] in Heq. discriminate Heq.
Qed.

Lemma elem_of_figure_paths (out_dir path : string) (cols : list string) :
  path ∈ figure_paths out_dir cols
  <-> exists col, col ∈ cols
                  /\ (path = parity_path out_dir col \/ path = heatmap_path out_dir col).
Proof.
  induction cols as [|c cols IH]; cbn [figure_paths flat_map app].
  - split; [intros H; inversion H|intros (col & H & _); inversion H].
  - rewrite !elem_of_cons. fold (figure_paths out_dir cols). rewrite IH. split.
    + intros [-> | [-> | (col & Hcol & Hpath)]].
      * exists c. split; [left; reflexivity|auto].
      * exists c. split; [left; reflexivity|auto].
      * exists col. split; [right; exact Hcol|exact Hpath].
    + intros (col & Hcol & Hpath). apply elem_of_cons in Hcol as [-> | Hcol].
      * destruct Hpath; auto.
      * right. right. exists col. auto.
Qed.

Lemma parity_path_in_figure_paths (out_dir c : string) (cols : list string) :
  parity_path out_dir c ∈ figure_paths out_dir cols <-> lower c ∈ map lower cols.
Proof.
  rewrite elem_of_figure_paths, list_elem_of_fmap. split.
  - intros (col & Hcol & [Heq | Heq]).
    + exists col. split; [exact (proj1 (parity_path_eq _ _ _) Heq)|exact Hcol].
    + destruct (parity_path_not_heatmap_path _ _ _ Heq).
  - intros (col & Heq & Hcol). exists col. split; [exact Hcol|].
    left. exact (proj2 (parity_path_eq _ _ _) Heq).
Qed.

Lemma heatmap_path_in_figure_paths (out_dir c : string) (cols : list string) :
  heatmap_path out_dir c ∈ figure_paths out_dir cols <-> lower c ∈ map lower cols.
Proof.
  rewrite elem_of_figure_paths, list_elem_of_fmap. split.
  - intros (col & Hcol & [Heq | Heq]).
    + destruct (parity_path_not_heatmap_path _ _ _ (eq_sym Heq)).
    + exists col. split; [exact (proj1 (heatmap_path_eq _ _ _) Heq)|exact Hcol].
  - intros (col & Heq & Hcol). exists col. split; [exact Hcol|].
    right. exact (proj2 (heatmap_path_eq _ _ _) Heq).
Qed.

Lemma NoDup_figure_paths (out_dir : string) (cols : list string) :
  NoDup (figure_paths out_dir cols) <-> NoDup (map lower cols).
Proof.
  induction cols as [|c cols IH]; cbn [figure_paths flat_map app map].
  - split; constructor.
  - fold (figure_paths out_dir cols).
    rewrite !NoDup_cons, elem_of_cons, IH.
    rewrite parity_path_in_figure_paths, heatmap_path_in_figure_paths.
    pose proof (parity_path_not_heatmap_path out_dir c c). tauto.
Qed.

Lemma saved_paths_app (evs evs' : list event) :
  saved_paths (evs ++ evs') = (saved_paths evs ++ saved_paths evs')%list.
Proof. apply flat_map_app. Qed.

Lemma saved_paths_saved (show_it : bool) (path : string) (fig : figure) :
  saved_paths (saved show_it path fig) = [path].
Proof. destruct show_it; reflexivity. Qed.

Lemma saved_paths_complete (args : arguments) (df_a df_b df_c : frame)
    (cols : list string) (out_dir : string) :
  output_dir args = Some out_dir ->
  forallb (column_ok df_a df_b df_c) cols = true ->
  saved_paths (flat_map (column_events args df_a df_b df_c) cols)
  = figure_paths out_dir cols.
Proof.
  intros Hdir. induction cols as [|c cols IH]; [reflexivity|].
  cbn [forallb flat_map figure_paths]. rewrite andb_true_iff. intros [Hc Hcols].
  rewrite saved_paths_app, (IH Hcols). fold (figure_paths out_dir cols).
  f_equal. unfold column_ok in Hc. unfold column_events. rewrite Hdir.
  destruct (getitem df_a c); [|discriminate].
  destruct (getitem df_b c); [|discriminate].
  destruct (getitem df_c "Theta"); [|discriminate].
  destruct (getitem df_c "R (A)"); [|discriminate].
  rewrite saved_paths_app, !saved_paths_saved. reflexivity.
Qed.

(** X17. On the inputs the utility is meant for, with the shared headers
    written in ASCII (where [lower] is [str.lower()]) and saving taken to
    succeed, the paths handed to [plt.savefig] are [parity_<col>.png] and
    [heatmap_<col>.png] with the header in lower case, column after column;
    no path is used twice exactly when no two shared headers agree up to case
    (otherwise the later figure overwrites the earlier). *)
Theorem figures_overwritten_exactly_on_case_clash
    (args : arguments) (df_a df_b df_c : frame) :
  inputs_ok args df_a df_b df_c = true ->
  forallb is_ascii_text (common_cols df_a df_b) = true ->
  exists out_dir,
    output_dir args = Some out_dir
    /\ saved_paths (events (main args df_a df_b df_c))
       = flat_map (fun col => [parity_path out_dir col; heatmap_path out_dir col])
                  (common_cols df_a df_b)
    /\ (NoDup (saved_paths (events (main args df_a df_b df_c)))
        <-> NoDup (map lower (common_cols df_a df_b))).
Proof.
  unfold inputs_ok.
  destruct (output_dir args) as [out_dir|] eqn:Hdir; [|discriminate].
  intros Hok _. exists out_dir. split; [reflexivity|].
  assert (Hpaths : saved_paths (events (main args df_a df_b df_c))
                   = figure_paths out_dir (common_cols df_a df_b)).
  { unfold main. destruct (common_cols df_a df_b) as [|c cols] eqn:Hcols;
      [reflexivity|].
    rewrite (plot_columns_complete _ _ _ _ _ out_dir Hdir Hok). cbn [events].
    apply saved_paths_complete; assumption. }
  split; [exact Hpaths|]. rewrite Hpaths. apply NoDup_figure_paths.
Qed.

(** Two tables that hold [Total] and [TOTAL]: four figures, two files. *)
Lemma figures_overwritten_exactly_on_case_clash_sample :
  saved_paths (events (main arguments_sample atomistic_two_cases atomcounter_two_cases
                         input_sample))
  = ["plots/parity_total.png"; "plots/heatmap_total.png";
     "plots/parity_total.png"; "plots/heatmap_total.png"].
Proof.
  destruct (figures_overwritten_exactly_on_case_clash arguments_sample
              atomistic_two_cases atomcounter_two_cases input_sample)
    as (out_dir & Hdir & -> & _).
  - vm_compute. reflexivity.
  - vm_compute. reflexivity.
  - injection Hdir as <-. vm_compute. reflexivity.
Defined.


(** *** Tables that hold one value *)

Lemma f_sub_zero_r (f : float64) : f_sub f (S754_zero false) = f.
Proof. destruct f as [[|]|[|]| |s m e]; reflexivity. Qed.

Lemma f_add_zero_r (f : float64) : f_abs f = f -> f_add f (S754_zero false) = f.
Proof. destruct f as [[|]|[|]| |s m e]; try reflexivity; discriminate. Qed.

(** X18. When the two integer columns hold one and the same count everywhere,
    the padding is zero and both ends of the x and y limits are that count:
    the axes are asked for a range of zero width. *)
Theorem constant_data_gives_zero_width_limits (col : string) (u v : list Z) (k : Z) :
  u <> [] -> v <> [] -> (0 <= k)%Z ->
  (forall w, w ∈ u \/ w ∈ v -> w = k) ->
  xlim (parity_of col (SInt u) (SInt v)) = (of_int k, of_int k)
  /\ ylim (parity_of col (SInt u) (SInt v)) = (of_int k, of_int k).
Proof.
  intros Hu Hv Hk Hall.
  destruct (joint_range_int u v Hu Hv) as (lo & hi & Hlo & Hhi & Hlo_in & Hhi_in & _).
  apply Hall in Hlo_in. apply Hall in Hhi_in. subst lo hi.
  assert (Hpad : pad (SInt u) (SInt v) = S754_zero false).
  { unfold pad. rewrite Hlo, Hhi. cbn [scalar_sub float_of].
    rewrite Z.sub_diag. reflexivity. }
  assert (Hlimits : (padded_lo (SInt u) (SInt v), padded_hi (SInt u) (SInt v))
                    = (of_int k, of_int k)).
  { unfold padded_lo, padded_hi. rewrite Hpad, Hlo, Hhi. cbn [float_of].
    rewrite f_sub_zero_r, f_add_zero_r by (apply f_abs_of_nonneg, Hk). reflexivity. }
  split; exact Hlimits.
Qed.

Lemma constant_data_gives_zero_width_limits_sample :
  xlim (parity_of "Total" (SInt [7; 7]%Z) (SInt [7; 7]%Z)) = (of_int 7, of_int 7).
Proof.
  apply (constant_data_gives_zero_width_limits "Total" [7; 7]%Z [7; 7]%Z 7);
    try discriminate.
  intros w [Hw | Hw]; repeat (apply elem_of_cons in Hw as [-> | Hw]; [reflexivity|]);
    inversion Hw.
Defined.

End ParityExtras.
